(** * mqtt2influxdb: the message-to-record mapping of [Mqtt2InfluxDB]

    A shallow embedding of [src/mqtt2influxdb/mqtt2influxdb.py].  The
    handler [_on_mqtt_message] is written in a small monad that threads
    the observable world (log, sink, compiled expressions, clock) and the
    three ways a block of Python statements can end: falling through,
    [return], or a raised exception.  The third-party functions the
    handler calls (paho's [topic_matches_sub], [json.loads],
    [jsonpath_ng.parse], [JSONPath.find], [datetime.utcnow]) are an
    interface, [Library]; a concrete model of that interface is given
    afterwards.  The handler is written twice: first with [find] and
    [write_points] returning, as their contracts say, then with these
    two unguarded calls free to raise ([Failing]); the two agree when
    the calls return. *)

From Stdlib Require Import String Ascii List ZArith NArith Bool Arith Lia.
Import ListNotations.
Local Open Scope string_scope.
Set Warnings "-register-all".

(** ** Python values *)

(** The values that JSON decoding and the MQTT client hand to the handler.
    A Python [str] is represented by its UTF-8 encoding, a [float] by the
    decimal literal that denotes it, a [dict] by its items in insertion
    order. *)
Inductive pyval : Type :=
| PNone
| PBool (b : bool)
| PInt (z : Z)
| PFloat (lexeme : string)
| PStr (s : string)
| PList (l : list pyval)
| PDict (d : list (string * pyval)).

(** [val is None] *)
Definition is_none (v : pyval) : bool :=
  match v with PNone => true | _ => false end.

(** A [dict] with [str] keys: the items in insertion order, keys unique. *)
Definition dict (V : Type) : Type := list (string * V).

Fixpoint dict_get {V : Type} (k : string) (d : dict V) : option V :=
  match d with
  | [] => None
  | (k', v) :: d' => if String.eqb k k' then Some v else dict_get k d'
  end.

(** [d[k] = v]: an existing key keeps its place, a new key goes last. *)
Fixpoint dict_set {V : Type} (k : string) (v : V) (d : dict V) : dict V :=
  match d with
  | [] => [(k, v)]
  | (k', v') :: d' =>
      if String.eqb k k' then (k', v) :: d' else (k', v') :: dict_set k v d'
  end.

Definition dict_keys {V : Type} (d : dict V) : list string := map fst d.

(** [not d] for a dict *)
Definition dict_is_empty {V : Type} (d : dict V) : bool :=
  match d with [] => true | _ => false end.

(** [s.split(sep)] for a one-character separator. *)
Fixpoint split (sep : ascii) (s : string) : list string :=
  match s with
  | EmptyString => [EmptyString]
  | String c s' =>
      if Ascii.eqb c sep then EmptyString :: split sep s'
      else match split sep s' with
           | [] => [String c EmptyString]
           | x :: xs => String c x :: xs
           end
  end.

(** ** Exceptions *)

Inductive exn : Type :=
| UnicodeDecodeError
| JSONDecodeError
| JsonPathParserError
| KeyError (key : string)
| TypeError
| InfluxDBClientError.

(** ** [bytes.decode('utf-8')]

    Strict decoding (RFC 3629): over-long forms, surrogates and code
    points above U+10FFFF are rejected.  As a [str] is held by its UTF-8
    encoding, a successful decode returns the bytes it was given. *)

Definition byte_in (lo hi : N) (c : ascii) : bool :=
  (lo <=? N_of_ascii c)%N && (N_of_ascii c <=? hi)%N.

Definition continuation : ascii -> bool := byte_in 128 191.

(** The range of the second byte after a three-byte lead. *)
Definition second_of_3 (b0 b1 : ascii) : bool :=
  if byte_in 224 224 b0 then byte_in 160 191 b1
  else if byte_in 237 237 b0 then byte_in 128 159 b1
  else continuation b1.

(** The range of the second byte after a four-byte lead. *)
Definition second_of_4 (b0 b1 : ascii) : bool :=
  if byte_in 240 240 b0 then byte_in 144 191 b1
  else if byte_in 244 244 b0 then byte_in 128 143 b1
  else continuation b1.

Fixpoint utf8_valid (bs : string) : bool :=
  match bs with
  | EmptyString => true
  | String b0 r0 =>
      if byte_in 0 127 b0 then utf8_valid r0
      else
        match r0 with
        | EmptyString => false
        | String b1 r1 =>
            if byte_in 194 223 b0 then continuation b1 && utf8_valid r1
            else
              match r1 with
              | EmptyString => false
              | String b2 r2 =>
                  if byte_in 224 239 b0
                  then second_of_3 b0 b1 && continuation b2 && utf8_valid r2
                  else
                    match r2 with
                    | EmptyString => false
                    | String b3 r3 =>
                        if byte_in 240 244 b0
                        then second_of_4 b0 b1 && continuation b2
                             && continuation b3 && utf8_valid r3
                        else false
                    end
              end
        end
  end.

Definition decode_utf8 (bs : string) : exn + string :=
  if utf8_valid bs then inr bs else inl UnicodeDecodeError.

(** ** The libraries the handler calls *)

Class Library : Type := {
  (** a compiled [jsonpath_ng.JSONPath] object *)
  JSONPath : Type;
  (** [paho.mqtt.client.topic_matches_sub(sub, topic)] *)
  topic_matches_sub : string -> string -> bool;
  (** [json.loads(text)]: the value, or the exception it raises *)
  json_loads : string -> exn + pyval;
  (** [jsonpath_ng.parse(text)]: the program, or the exception it raises *)
  jsonpath_parse : string -> exn + JSONPath;
  (** [path.find(data)], when it returns: the values of the matches, in
      order (section 4.2: absence of a match is a normal outcome); the
      exception it may raise instead is [find_raises], below *)
  jsonpath_find : JSONPath -> pyval -> list pyval;
  (** [datetime.utcnow().strftime('%Y-%m-%dT%H:%M:%SZ')] at the n-th
      reading of the clock *)
  utcnow : nat -> string
}.

(** ** Messages, points, records *)

Module Message.
(** What paho hands to [on_message]: [topic] is a [str], [payload] is
    [bytes]. *)
Record t : Type := Build {
  topic : string;
  payload : string;
  timestamp : pyval;
  qos : Z
}.
End Message.

(** An object passed to [_get_value_from_str_or_JSONPath]: a plain value
    of the configuration or a compiled path. *)
Inductive param {L : Library} : Type :=
| Obj (v : pyval)
| Compiled (p : JSONPath).

Module Point.
(** One entry of [config['points']]; ['fields'], ['tags'] and
    ['database'] may be absent. *)
Record t {L : Library} : Type := Build {
  topic : string;
  measurement : param;
  fields : option (dict string);
  tags : option (dict string);
  database : option string
}.
End Point.

Module Rec.
(** The [record] dict handed to [write_points]. *)
Record t : Type := Build {
  measurement : pyval;
  time : string;
  tags : dict pyval;
  fields : dict pyval
}.
End Rec.

(** ** The world and the monad *)

Inductive level : Type := DEBUG | INFO | WARNING | ERROR.

Inductive logarg : Type :=
| AStr (s : string)
| ABytes (b : string)
| AExn (e : exn)
| AInt (z : Z)
| ABool (b : bool)
| ARecord (r : Rec.t).

Record log_entry : Type := Log {
  log_level : level;
  log_format : string;
  log_args : list logarg
}.

(** One call [write_points([record], database=db)]. *)
Record write_call : Type := Write_points {
  written : Rec.t;
  into : option string
}.

(** The other calls on the two clients, made by [__init__]. *)
Inductive client_call : Type :=
| InfluxDBClient (host : string) (port : Z) (username password : string)
                 (ssl : bool)
| Create_database (name : string)
| Switch_database (name : string)
| Mqtt_Client
| Username_pw_set (username : string) (password : option string)
| Tls_set (cafile : string) (certfile keyfile : option string)
| Connect_async (host : string) (port : Z) (keepalive : Z)
| Loop_forever.

Record world : Type := World {
  w_log : list log_entry;       (* calls to logging, oldest first *)
  w_sink : list write_call;     (* calls to write_points, oldest first *)
  w_compiled : list string;     (* calls to jsonpath_ng.parse, oldest first *)
  w_clock : nat;                (* readings of the clock so far *)
  w_calls : list client_call    (* other calls on the clients, oldest first *)
}.

Definition world0 : world := World [] [] [] 0 [].

(** How a block of statements ends. *)
Inductive flow (A : Type) : Type :=
| Normal (a : A)         (* falls through with a value *)
| Returned               (* a [return] statement was run *)
| Raised (e : exn).      (* an exception left the block *)
Arguments Normal {A} a.
Arguments Returned {A}.
Arguments Raised {A} e.

Definition M (A : Type) : Type := world -> flow A * world.

Definition ret {A : Type} (a : A) : M A := fun w => (Normal a, w).

Definition bind {A B : Type} (m : M A) (k : A -> M B) : M B :=
  fun w =>
    match m w with
    | (Normal a, w') => k a w'
    | (Returned, w') => (Returned, w')
    | (Raised e, w') => (Raised e, w')
    end.

Declare Scope py_scope.
Delimit Scope py_scope with py.
Notation "x <- m ;; k" := (bind m (fun x => k))
  (at level 61, m at next level, right associativity) : py_scope.
Notation "m ;; k" := (bind m (fun _ => k))
  (at level 61, right associativity) : py_scope.
Local Open Scope py_scope.

Definition py_return {A : Type} : M A := fun w => (Returned, w).

Definition raise {A : Type} (e : exn) : M A := fun w => (Raised e, w).

Definition lift {A : Type} (r : exn + A) : M A :=
  match r with inl e => raise e | inr a => ret a end.

Definition logging (lvl : level) (fmt : string) (args : list logarg) : M unit :=
  fun w => (Normal tt,
            World (w_log w ++ [Log lvl fmt args]) (w_sink w) (w_compiled w)
                  (w_clock w) (w_calls w)).

(** [write_points([record], database=db)], when the call returns; the
    call that may raise is [write_points_r], below. *)
Definition write_points (r : Rec.t) (db : option string) : M unit :=
  fun w => (Normal tt,
            World (w_log w) (w_sink w ++ [Write_points r db]) (w_compiled w)
                  (w_clock w) (w_calls w)).

Definition call (c : client_call) : M unit :=
  fun w => (Normal tt,
            World (w_log w) (w_sink w) (w_compiled w) (w_clock w)
                  (w_calls w ++ [c])).

Definition when (b : bool) (m : M unit) : M unit := if b then m else ret tt.

Section Handler.
Context {L : Library}.

(** [jsonpath_ng.parse(text)], the call recorded. *)
Definition compile (text : string) : M JSONPath :=
  fun w =>
    let w' := World (w_log w) (w_sink w) (w_compiled w ++ [text])
                    (w_clock w) (w_calls w) in
    lift (jsonpath_parse text) w'.

(** [datetime.utcnow().strftime(...)] *)
Definition now : M string :=
  fun w => (Normal (utcnow (w_clock w)),
            World (w_log w) (w_sink w) (w_compiled w) (S (w_clock w))
                  (w_calls w)).

(** [_get_value_from_str_or_JSONPath(param, msg)]: a function that
    ends without [return] gives [None]. *)
Definition _get_value_from_str_or_JSONPath (p : param) (msg : pyval) : pyval :=
  match p with
  | Obj (PStr s) => PStr s
  | Compiled path =>
      match jsonpath_find path msg with
      | [] => PNone
      | v :: _ => v
      end
  | Obj _ => PNone
  end.

(** The dict [msg] of lines 92-97. *)
Definition envelope (message : Message.t) (payload : pyval) : pyval :=
  PDict [("topic", PList (map PStr (split "/" (Message.topic message))));
         ("payload", payload);
         ("timestamp", Message.timestamp message);
         ("qos", PInt (Message.qos message))].

(** Lines 83-97: the block under [if not msg]. *)
Definition build_msg (message : Message.t) : M pyval :=
  payload <- lift (decode_utf8 (Message.payload message)) ;;
  let payload := if String.eqb payload EmptyString then "null" else payload in
  match json_loads payload with
  | inl e =>
      logging ERROR "parse json: %s topic: %s payload: %s"
              [AExn e; AStr (Message.topic message);
               ABytes (Message.payload message)] ;;
      py_return
  | inr v => ret (envelope message v)
  end.

(** The loops of lines 110-114 and 124-128, over the items of the
    configured dict; [acc] is [record['fields']] (or [record['tags']]). *)
Fixpoint extract (specs : dict string) (msg : pyval) (acc : dict pyval)
  : M (dict pyval) :=
  match specs with
  | [] => ret acc
  | (key, text) :: rest =>
      path <- compile text ;;
      let val := _get_value_from_str_or_JSONPath (Compiled path) msg in
      if is_none val then extract rest msg acc
      else extract rest msg (dict_set key val acc)
  end.

(** [len(point[name])]: a [KeyError] when the key is absent. *)
Definition len_of (name : string) (d : option (dict string)) : M nat :=
  match d with
  | Some specs => ret (length specs)
  | None => raise (KeyError name)
  end.

(** [if name in point: for key in point[name]: ...] *)
Definition extract_if_present (d : option (dict string)) (msg : pyval)
  : M (dict pyval) :=
  match d with
  | Some specs => extract specs msg []
  | None => ret []
  end.

(** Lines 81-135: the body of [for point in self._points], from the
    value of [msg] before to its value after. *)
Definition loop_body (message : Message.t) (point : Point.t)
           (msg : option pyval) : M (option pyval) :=
  if topic_matches_sub (Point.topic point) (Message.topic message) then
    msg <- match msg with
           | None => build_msg message
           | Some m => ret m
           end ;;
    let measurement :=
      _get_value_from_str_or_JSONPath (Point.measurement point) msg in
    if is_none measurement then
      logging WARNING "unknown measurement" [] ;; py_return
    else
      time <- now ;;
      fields <- extract_if_present (Point.fields point) msg ;;
      if dict_is_empty fields then
        logging WARNING "empty fields" [] ;; py_return
      else
        nfields <- len_of "fields" (Point.fields point) ;;
        when (negb (length fields =? nfields)%nat)
             (logging WARNING "different number of fields" []) ;;
        tags <- extract_if_present (Point.tags point) msg ;;
        ntags <- len_of "tags" (Point.tags point) ;;
        when (negb (length tags =? ntags)%nat)
             (logging WARNING "different number of tags" []) ;;
        let record := Rec.Build measurement time tags fields in
        logging DEBUG "influxdb write %s" [ARecord record] ;;
        write_points record (Point.database point) ;;
        ret (Some msg)
  else ret msg.

Fixpoint for_points (message : Message.t) (points : list Point.t)
         (msg : option pyval) : M unit :=
  match points with
  | [] => ret tt
  | point :: rest =>
      msg' <- loop_body message point msg ;;
      for_points message rest msg'
  end.

(** [_on_mqtt_message(self, client, userdata, message)] with
    [self._points = points]. *)
Definition _on_mqtt_message (points : list Point.t) (message : Message.t)
  : M unit :=
  logging DEBUG "mqtt_on_message %s %s"
          [AStr (Message.topic message); ABytes (Message.payload message)] ;;
  for_points message points None.

(** [for point in self._points: if 'database' in point: ...] *)
Fixpoint create_databases (points : list Point.t) : M unit :=
  match points with
  | [] => ret tt
  | point :: rest =>
      match Point.database point with
      | Some name => call (Create_database name)
      | None => ret tt
      end ;;
      create_databases rest
  end.

End Handler.

Module Config.
(** [config['influxdb']] *)
Record influxdb : Type := Influxdb {
  host : string;
  port : Z;
  username : option string;
  password : option string;
  ssl : option bool;
  database : string
}.
(** [config['mqtt']] *)
Record mqtt : Type := Mqtt {
  mqtt_host : string;
  mqtt_port : Z;
  mqtt_username : option string;
  mqtt_password : option string;
  cafile : option string;
  certfile : option string;
  keyfile : option string
}.
Record t {L : Library} : Type := Build {
  points : list Point.t;
  influx : influxdb;
  broker : mqtt
}.
End Config.

(** [d.get(key, default)] *)
Definition get_default {A : Type} (o : option A) (default : A) : A :=
  match o with Some a => a | None => default end.

(** The truth value of [d.get(key, None)] for a [str] entry. *)
Definition truthy (o : option string) : option string :=
  match o with
  | Some EmptyString => None
  | other => other
  end.

(** [Mqtt2InfluxDB.__init__(self, config)], up to the call of
    [loop_forever], from which the callbacks run. *)
Definition __init__ {L : Library} (config : Config.t) : M unit :=
  let i := Config.influx config in
  let m := Config.broker config in
  call (InfluxDBClient (Config.host i) (Config.port i)
          (get_default (Config.username i) "root")
          (get_default (Config.password i) "root")
          (get_default (Config.ssl i) false)) ;;
  call (Create_database (Config.database i)) ;;
  call (Switch_database (Config.database i)) ;;
  create_databases (Config.points config) ;;
  call Mqtt_Client ;;
  match truthy (Config.mqtt_username m) with
  | Some user => call (Username_pw_set user (Config.mqtt_password m))
  | None => ret tt
  end ;;
  match truthy (Config.cafile m) with
  | Some ca => call (Tls_set ca (Config.certfile m) (Config.keyfile m))
  | None => ret tt
  end ;;
  logging INFO "MQTT broker host: %s, port: %d, use tls: %s"
          [AStr (Config.mqtt_host m); AInt (Config.mqtt_port m);
           ABool (match truthy (Config.cafile m) with
                  | Some _ => true
                  | None => false
                  end)] ;;
  call (Connect_async (Config.mqtt_host m) (Config.mqtt_port m) 10) ;;
  call Loop_forever.

(** ** A model of the libraries *)

(** *** The topic matcher *)

(** Modelled from the spec: [topic_matches_sub] is imported from
    paho-mqtt and is not among the sources.  Section 4.1, on the
    "/"-delimited segments, left to right: a segment "#" matches the
    remainder of the topic (zero or more segments) and must be the final
    pattern segment; "+" matches exactly one segment of any content; a
    literal segment matches only an identical segment; the match fails if
    the pattern is exhausted before the topic, or the topic before the
    pattern without a trailing "#".  A "#" that is not final is not a
    pattern of the contract and matches nothing here. *)
Fixpoint match_segments (pattern topic : list string) : bool :=
  match pattern with
  | [] => match topic with [] => true | _ :: _ => false end
  | p :: pattern' =>
      if String.eqb p "#" then
        match pattern' with [] => true | _ :: _ => false end
      else
        match topic with
        | [] => false
        | t :: topic' =>
            if String.eqb p "+" || String.eqb p t
            then match_segments pattern' topic'
            else false
        end
  end.

(** Modelled from the spec: the contract [matches(pattern, topic)] of
    section 4.1, standing for paho-mqtt's [topic_matches_sub]. *)
Definition matches (pattern topic : string) : bool :=
  match_segments (split "/" pattern) (split "/" topic).

(** *** JSON decoding *)

Definition is_ws (c : ascii) : bool :=
  Ascii.eqb c " " || Ascii.eqb c "009" || Ascii.eqb c "010" || Ascii.eqb c "013".

Fixpoint skip_ws (s : string) : string :=
  match s with
  | String c r => if is_ws c then skip_ws r else s
  | EmptyString => s
  end.

(** [s] without the prefix [p], when it starts with it. *)
Fixpoint strip (p s : string) : option string :=
  match p with
  | EmptyString => Some s
  | String c p' =>
      match s with
      | String d s' => if Ascii.eqb c d then strip p' s' else None
      | EmptyString => None
      end
  end.

Definition is_digit (c : ascii) : bool := byte_in 48 57 c.

(** The longest prefix of digits, and what follows it. *)
Fixpoint span_digits (s : string) : string * string :=
  match s with
  | String c r =>
      if is_digit c then let (ds, rest) := span_digits r in (String c ds, rest)
      else (EmptyString, s)
  | EmptyString => (EmptyString, s)
  end.

Fixpoint Z_of_digits (acc : Z) (ds : string) : Z :=
  match ds with
  | String c r => Z_of_digits (10 * acc + (Z.of_N (N_of_ascii c) - 48)) r
  | EmptyString => acc
  end.

(** The integer part, an optional minus then 0 or a digit string that
    does not start with 0: sign, digits, rest. *)
Definition int_part (s : string) : option (bool * string * string) :=
  let (neg, s1) := match s with
                   | String "-" r => (true, r)
                   | _ => (false, s)
                   end in
  match s1 with
  | String "0" r => Some (neg, "0", r)
  | String c r =>
      if is_digit c then
        let (ds, rest) := span_digits s1 in Some (neg, ds, rest)
      else None
  | EmptyString => None
  end.

(** The optional fraction: a dot and at least one digit. *)
Definition frac_part (s : string) : string * string :=
  match s with
  | String "." r =>
      match span_digits r with
      | (EmptyString, _) => (EmptyString, s)
      | (ds, rest) => (String "." ds, rest)
      end
  | _ => (EmptyString, s)
  end.

(** The optional exponent: e or E, an optional sign, at least one digit. *)
Definition exp_part (s : string) : string * string :=
  match s with
  | String e r =>
      if Ascii.eqb e "e" || Ascii.eqb e "E" then
        let (sign, r') := match r with
                          | String "-" r1 => ("-", r1)
                          | String "+" r1 => ("+", r1)
                          | _ => (EmptyString, r)
                          end in
        match span_digits r' with
        | (EmptyString, _) => (EmptyString, s)
        | (ds, rest) => (String e (sign ++ ds), rest)
        end
      else (EmptyString, s)
  | EmptyString => (EmptyString, s)
  end.

(** A number: an [int] when it has neither fraction nor exponent, else
    the [float] its text denotes. *)
Definition scan_number (s : string) : option (pyval * string) :=
  match int_part s with
  | None => None
  | Some (neg, ds, r) =>
      let (frac, r1) := frac_part r in
      let (exp, r2) := exp_part r1 in
      match frac, exp with
      | EmptyString, EmptyString =>
          Some (PInt (if neg then - Z_of_digits 0 ds else Z_of_digits 0 ds), r2)
      | _, _ =>
          Some (PFloat ((if neg then "-" else EmptyString) ++ ds ++ frac ++ exp), r2)
      end
  end.

Definition hex_digit (c : ascii) : option N :=
  let n := N_of_ascii c in
  if byte_in 48 57 c then Some (n - 48)%N
  else if byte_in 97 102 c then Some (n - 87)%N
  else if byte_in 65 70 c then Some (n - 55)%N
  else None.

(** Four hexadecimal digits. *)
Definition hex4 (s : string) : option (N * string) :=
  match s with
  | String a (String b (String c (String d r))) =>
      match hex_digit a, hex_digit b, hex_digit c, hex_digit d with
      | Some x, Some y, Some z, Some t =>
          Some (((x * 16 + y) * 16 + z) * 16 + t, r)%N
      | _, _, _, _ => None
      end
  | _ => None
  end.

Definition chr (n : N) : ascii := ascii_of_N n.

(** The encoding of one code point (a lone surrogate takes the
    three-byte form). *)
Definition utf8_encode (cp : N) : string :=
  if (cp <? 128)%N then String (chr cp) EmptyString
  else if (cp <? 2048)%N then
    String (chr (192 + cp / 64)) (String (chr (128 + cp mod 64)) EmptyString)
  else if (cp <? 65536)%N then
    String (chr (224 + cp / 4096))
      (String (chr (128 + (cp / 64) mod 64))
         (String (chr (128 + cp mod 64)) EmptyString))
  else
    String (chr (240 + cp / 262144))
      (String (chr (128 + (cp / 4096) mod 64))
         (String (chr (128 + (cp / 64) mod 64))
            (String (chr (128 + cp mod 64)) EmptyString))).

(** The character of a one-letter escape. *)
Definition backslash (c : ascii) : option ascii :=
  if Ascii.eqb c "034" then Some "034"%char
  else if Ascii.eqb c "\" then Some "\"%char
  else if Ascii.eqb c "/" then Some "/"%char
  else if Ascii.eqb c "b" then Some "008"%char
  else if Ascii.eqb c "f" then Some "012"%char
  else if Ascii.eqb c "n" then Some "010"%char
  else if Ascii.eqb c "r" then Some "013"%char
  else if Ascii.eqb c "t" then Some "009"%char
  else None.

(** The escape after a backslash-u: the code point and the rest; a high
    surrogate followed by an escaped low surrogate makes one code point. *)
Definition unicode_escape (s : string) : option (N * string) :=
  match hex4 s with
  | None => None
  | Some (hi, r) =>
      if (55296 <=? hi)%N && (hi <=? 56319)%N then
        match strip "\u" r with
        | None => Some (hi, r)
        | Some r1 =>
            match hex4 r1 with
            | None => None
            | Some (lo, r2) =>
                if (56320 <=? lo)%N && (lo <=? 57343)%N
                then Some (65536 + (hi - 55296) * 1024 + (lo - 56320), r2)%N
                else Some (hi, r)
            end
        end
      else Some (hi, r)
  end.

(** The text of a string, from after its opening quote to its closing
    quote; control characters must be escaped. *)
Fixpoint scanstring (fuel : nat) (s : string) : option (string * string) :=
  match fuel with
  | O => None
  | S fuel' =>
      match s with
      | EmptyString => None
      | String c r =>
          if Ascii.eqb c "034" then Some (EmptyString, r)
          else if Ascii.eqb c "\" then
            match r with
            | String "u" r1 =>
                match unicode_escape r1 with
                | None => None
                | Some (cp, r2) =>
                    match scanstring fuel' r2 with
                    | None => None
                    | Some (text, rest) => Some (utf8_encode cp ++ text, rest)
                    end
                end
            | String e r1 =>
                match backslash e with
                | None => None
                | Some x =>
                    match scanstring fuel' r1 with
                    | None => None
                    | Some (text, rest) => Some (String x text, rest)
                    end
                end
            | EmptyString => None
            end
          else if byte_in 0 31 c then None
          else
            match scanstring fuel' r with
            | None => None
            | Some (text, rest) => Some (String c text, rest)
            end
      end
  end.

(** The constants the decoder accepts beside numbers. *)
Definition scan_constant (s : string) : option (pyval * string) :=
  match strip "NaN" s with
  | Some r => Some (PFloat "nan", r)
  | None =>
      match strip "Infinity" s with
      | Some r => Some (PFloat "inf", r)
      | None =>
          match strip "-Infinity" s with
          | Some r => Some (PFloat "-inf", r)
          | None => None
          end
      end
  end.

(** [dict(pairs)]: a repeated key keeps its first place and its last
    value. *)
Definition dict_of_pairs {V : Type} (pairs : list (string * V)) : dict V :=
  fold_left (fun d kv => dict_set (fst kv) (snd kv) d) pairs [].

(** One value at the head of [s]; the items of an array, [s] at an item;
    the members of an object, [s] after the opening quote of a key. *)
Fixpoint scan_once (fuel : nat) (s : string) : option (pyval * string) :=
  match fuel with
  | O => None
  | S fuel' =>
      match s with
      | String "034"%char r =>
          match scanstring (String.length r + 1) r with
          | Some (text, rest) => Some (PStr text, rest)
          | None => None
          end
      | String "{" r =>
          match skip_ws r with
          | String "}" rest => Some (PDict [], rest)
          | String "034"%char r1 => scan_members fuel' r1 []
          | _ => None
          end
      | String "[" r =>
          match skip_ws r with
          | String "]" rest => Some (PList [], rest)
          | r1 => scan_items fuel' r1 []
          end
      | _ =>
          match strip "null" s with
          | Some rest => Some (PNone, rest)
          | None =>
          match strip "true" s with
          | Some rest => Some (PBool true, rest)
          | None =>
          match strip "false" s with
          | Some rest => Some (PBool false, rest)
          | None =>
          match scan_number s with
          | Some r => Some r
          | None => scan_constant s
          end end end end
      end
  end
with scan_items (fuel : nat) (s : string) (acc : list pyval)
  : option (pyval * string) :=
  match fuel with
  | O => None
  | S fuel' =>
      match scan_once fuel' s with
      | None => None
      | Some (v, r) =>
          match skip_ws r with
          | String "]" rest => Some (PList (rev (v :: acc)), rest)
          | String "," rest => scan_items fuel' (skip_ws rest) (v :: acc)
          | _ => None
          end
      end
  end
with scan_members (fuel : nat) (s : string) (acc : list (string * pyval))
  : option (pyval * string) :=
  match fuel with
  | O => None
  | S fuel' =>
      match scanstring (String.length s + 1) s with
      | None => None
      | Some (key, r) =>
          match skip_ws r with
          | String ":" r1 =>
              match scan_once fuel' (skip_ws r1) with
              | None => None
              | Some (v, r2) =>
                  match skip_ws r2 with
                  | String "}" rest =>
                      Some (PDict (dict_of_pairs (rev ((key, v) :: acc))), rest)
                  | String "," r3 =>
                      match skip_ws r3 with
                      | String "034"%char r4 => scan_members fuel' r4 ((key, v) :: acc)
                      | _ => None
                      end
                  | _ => None
                  end
              end
          | _ => None
          end
      end
  end.

(** Modelled from the spec: [json.loads] is Python's standard decoder and
    is not among the sources.  Section 4.3: "Parse as JSON.  Fails with
    ParseError if malformed"; the grammar is that of RFC 8259 with the
    constants [NaN], [Infinity] and [-Infinity] the decoder also reads.
    The text of the error is not modelled. *)
Definition loads (text : string) : exn + pyval :=
  match scan_once (2 * String.length text + 2) (skip_ws text) with
  | Some (v, rest) =>
      match skip_ws rest with
      | EmptyString => inr v
      | String _ _ => inl JSONDecodeError
      end
  | None => inl JSONDecodeError
  end.

(** *** Path programs *)

(** One step of a path program: a member of an object by name, or an
    element of an array by position. *)
Inductive step : Type :=
| Field (name : string)
| Index (i : nat).

(** Modelled from the spec: the path language of jsonpath_ng is not among
    the sources.  Section 4.2 ("a small path language", whose programs
    address the topic segments, the parsed payload, the timestamp and the
    QoS of the envelope) with the forms the spec uses, as in
    [$.payload.value] and [$.topic[1]]: the root, then member and index
    steps applied from left to right.  A program is the list of its steps
    after the root. *)
Definition program : Type := list step.

Definition is_name_start (c : ascii) : bool :=
  byte_in 65 90 c || byte_in 97 122 c || Ascii.eqb c "_".

Definition is_name_char (c : ascii) : bool :=
  is_name_start c || is_digit c || Ascii.eqb c "-".

Fixpoint span_name (s : string) : string * string :=
  match s with
  | String c r =>
      if is_name_char c then let (n, rest) := span_name r in (String c n, rest)
      else (EmptyString, s)
  | EmptyString => (EmptyString, s)
  end.

(** A member name; [where] is a word of the language, not a name. *)
Definition scan_name (s : string) : option (string * string) :=
  match s with
  | String c r =>
      if is_name_start c then
        let (n, rest) := span_name r in
        if String.eqb (String c n) "where" then None
        else Some (String c n, rest)
      else None
  | EmptyString => None
  end.

Fixpoint scan_steps (fuel : nat) (s : string) : option program :=
  match fuel with
  | O => None
  | S fuel' =>
      match s with
      | EmptyString => Some []
      | String "." r =>
          match scan_name r with
          | Some (n, rest) => option_map (cons (Field n)) (scan_steps fuel' rest)
          | None => None
          end
      | String "[" r =>
          match span_digits r with
          | (EmptyString, _) => None
          | (ds, String "]" rest) =>
              option_map (cons (Index (Z.to_nat (Z_of_digits 0 ds))))
                         (scan_steps fuel' rest)
          | (_, _) => None
          end
      | String _ _ => None
      end
  end.

(** Modelled from the spec: compilation of a path text (section 4.2);
    it fails when "the path syntax is invalid". *)
Definition parse (text : string) : exn + program :=
  let steps :=
    match text with
    | String "$" r => scan_steps (S (String.length r)) r
    | _ =>
        match scan_name text with
        | Some (n, rest) =>
            option_map (cons (Field n)) (scan_steps (S (String.length rest)) rest)
        | None => None
        end
    end in
  match steps with
  | Some p => inr p
  | None => inl JsonPathParserError
  end.

(** The values one step selects from one value. *)
Definition step_find (s : step) (v : pyval) : list pyval :=
  match s, v with
  | Field name, PDict d =>
      match dict_get name d with Some x => [x] | None => [] end
  | Index i, PList l =>
      match nth_error l i with Some x => [x] | None => [] end
  | _, _ => []
  end.

(** Modelled from the spec: evaluation of a compiled program (section
    4.2): the matches in order; "absence of a match is a normal no-value
    outcome, not a failure". *)
Definition find (p : program) (data : pyval) : list pyval :=
  fold_left (fun found s => flat_map (step_find s) found) p [data].

(** The model: the three libraries above and a clock that stands still. *)
Definition model : Library := {|
  JSONPath := program;
  topic_matches_sub := matches;
  json_loads := loads;
  jsonpath_parse := parse;
  jsonpath_find := find;
  utcnow := fun _ => "1970-01-01T00:00:00Z"
|}.

(** A double quote, and a text between double quotes. *)
Definition quote : string := String "034"%char EmptyString.
Definition quoted (s : string) : string := quote ++ s ++ quote.

(** ** What the proofs speak of *)

(** A written record with at least one field. *)
Definition has_fields (c : write_call) : Prop := Rec.fields (written c) <> [].

(** [m] only appends to the sink, and what it appends satisfies [P]. *)
Definition appends (P : write_call -> Prop) {A : Type} (m : M A) : Prop :=
  forall w, exists new,
    w_sink (snd (m w)) = (w_sink w ++ new)%list /\ Forall P new.

(** [m] leaves log, sink, clock and client calls as they are. *)
Definition quiet {A : Type} (m : M A) : Prop :=
  forall w, w_log (snd (m w)) = w_log w /\ w_sink (snd (m w)) = w_sink w
            /\ w_clock (snd (m w)) = w_clock w
            /\ w_calls (snd (m w)) = w_calls w.

(** [m] compiles nothing and ends by falling through. *)
Definition compiles_nothing {A : Type} (m : M A) : Prop :=
  forall w, w_compiled (snd (m w)) = w_compiled w
            /\ exists a, fst (m w) = Normal a.

(** The field set that section 4.4 (step 2) describes for a mapping: the
    keys in their order, those whose expression yields no value left
    out.  The loop [extract] is compared with it. *)
Definition partial_extraction {L : Library} (specs : dict string) (msg : pyval)
  : dict pyval :=
  flat_map
    (fun kv =>
       match jsonpath_parse (snd kv) with
       | inr path =>
           let val := _get_value_from_str_or_JSONPath (Compiled path) msg in
           if is_none val then [] else [(fst kv, val)]
       | inl _ => []
       end)
    specs.

(** Every expression of the mapping compiles. *)
Definition compilable {L : Library} (specs : dict string) : Prop :=
  Forall (fun kv => exists path, jsonpath_parse (snd kv) = inr path) specs.

(** Some rule of the list matches the topic. *)
Definition some_rule_matches {L : Library} (points : list Point.t)
           (topic : string) : bool :=
  existsb (fun point => topic_matches_sub (Point.topic point) topic) points.

(** The program [$.payload] followed by [steps]: a path into the payload. *)
Definition into_payload (steps : program) : program := Field "payload" :: steps.

(** A pattern segment against a topic segment (section 4.1): "+" takes
    any one segment, a literal only itself. *)
Definition segment_matches (p t : string) : Prop := p = "+" \/ p = t.

(** The warning of line 121 (and of line 131), when the counts differ. *)
Definition count_warning (what : string) (found configured : nat)
  : list log_entry :=
  if (found =? configured)%nat then []
  else [Log WARNING ("different number of " ++ what)%string []].

(** Lines 123-135 of the body of the loop, as they run once the fields
    are found; [loop_body] is compared with it. *)
Definition after_fields {L : Library} (point : Point.t) (env measurement : pyval)
           (time : string) (fields : dict pyval) : M (option pyval) :=
  (tags <- extract_if_present (Point.tags point) env ;;
   ntags <- len_of "tags" (Point.tags point) ;;
   when (negb (length tags =? ntags)%nat)
        (logging WARNING "different number of tags" []) ;;
   let record := Rec.Build measurement time tags fields in
   logging DEBUG "influxdb write %s" [ARecord record] ;;
   write_points record (Point.database point) ;;
   ret (Some env))%py.

(** ** Scenarios, on the model *)

Module Scenario.

Definition rule (topic measurement : string)
           (fields tags : option (dict string)) : @Point.t model :=
  @Point.Build model topic (@Obj model (PStr measurement)) fields tags None.

Definition message_on (topic payload : string) : Message.t :=
  Message.Build topic payload (PFloat "0.0") 0.

(** The rule of the end-to-end scenario of section 8. *)
Definition temperature : @Point.t model :=
  rule "sensors/+/temp" "temperature"
       (Some [("value", "$.payload.value")])
       (Some [("sensor", "$.topic[1]")]).

(** A second rule on the same topics, for a member the readings lack. *)
Definition humidity : @Point.t model :=
  rule "sensors/+/temp" "humidity"
       (Some [("value", "$.payload.humidity")])
       (Some []).

(** The temperature rule without the [tags] key, and with an empty one. *)
Definition untagged : @Point.t model :=
  rule "sensors/+/temp" "temperature"
       (Some [("value", "$.payload.value")]) None.

Definition tagless : @Point.t model :=
  rule "sensors/+/temp" "temperature"
       (Some [("value", "$.payload.value")]) (Some []).

(** A rule whose field expression ends in a dot. *)
Definition broken : @Point.t model :=
  rule "sensors/+/temp" "temperature"
       (Some [("value", "$.payload.")]) (Some []).

(** The rule of the partial-extraction scenario as section 8 writes it,
    and with its paths under [payload]. *)
Definition partial_as_written : @Point.t model :=
  rule "t" "m" (Some [("a", "$.x"); ("b", "$.y")]) None.

Definition partial_as_written_tagless : @Point.t model :=
  rule "t" "m" (Some [("a", "$.x"); ("b", "$.y")]) (Some []).

Definition partial : @Point.t model :=
  rule "t" "m" (Some [("a", "$.payload.x"); ("b", "$.payload.y")]) (Some []).

(** Payload [{"value": 21.5}] *)
Definition reading : Message.t :=
  message_on "sensors/kitchen/temp" ("{" ++ quoted "value" ++ ": 21.5}").

(** Payload [{"value":], cut short *)
Definition truncated : Message.t :=
  message_on "sensors/kitchen/temp" ("{" ++ quoted "value" ++ ":").

(** The zero-length payload *)
Definition empty : Message.t :=
  message_on "sensors/kitchen/temp" EmptyString.

(** The one-byte payload FF, which is not UTF-8 *)
Definition undecodable : Message.t :=
  message_on "sensors/kitchen/temp" (String (ascii_of_nat 255) EmptyString).

(** Payload [{"x": 1}] *)
Definition x_is_1 : Message.t :=
  message_on "t" ("{" ++ quoted "x" ++ ": 1}").

Definition config (points : list (@Point.t model)) : @Config.t model :=
  @Config.Build model points
    (Config.Influxdb "localhost" 8086 None None None "telemetry")
    (Config.Mqtt "localhost" 1883 None None None None None).

End Scenario.

(** ** The connection callbacks *)

(** What a connection callback does, in order: an entry of the log, or a
    call [client.subscribe(topic)]. *)
Inductive effect : Type :=
| Logged (entry : log_entry)
| Subscribed (topic : string).

Module Connack.
(** The return codes [paho.mqtt.client.CONNACK_...], which the sources
    import and do not define: taken as they come. *)
Record t : Type := Build {
  ACCEPTED : Z;
  REFUSED_PROTOCOL_VERSION : Z;
  REFUSED_IDENTIFIER_REJECTED : Z;
  REFUSED_SERVER_UNAVAILABLE : Z;
  REFUSED_BAD_USERNAME_PASSWORD : Z;
  REFUSED_NOT_AUTHORIZED : Z
}.
End Connack.

(** The dict [lut] of lines 58-62, its items as they are written. *)
Definition lut (codes : Connack.t) : list (Z * string) :=
  [(Connack.REFUSED_PROTOCOL_VERSION codes, "incorrect protocol version");
   (Connack.REFUSED_IDENTIFIER_REJECTED codes, "invalid client identifier");
   (Connack.REFUSED_SERVER_UNAVAILABLE codes, "server unavailable");
   (Connack.REFUSED_BAD_USERNAME_PASSWORD codes, "bad username or password");
   (Connack.REFUSED_NOT_AUTHORIZED codes, "not authorised")].

(** [lut.get(rc, default)]: of two items of a dict display with the same
    key, the later one stands. *)
Definition lut_get (codes : Connack.t) (rc : Z) (default : string) : string :=
  match List.find (fun kv => Z.eqb (fst kv) rc) (rev (lut codes)) with
  | Some (_, reason) => reason
  | None => default
  end.

(** [_on_mqtt_connect(self, client, userdata, flags, rc)] with
    [self._points = points]. *)
Definition _on_mqtt_connect {L : Library} (codes : Connack.t)
           (points : list Point.t) (rc : Z) : list effect :=
  ([Logged (Log INFO "Connected to MQTT broker with code %s" [AInt rc])]
   ++ (if negb (Z.eqb rc (Connack.ACCEPTED codes))
       then [Logged (Log ERROR "Connection refused from reason: %s"
                         [AStr (lut_get codes rc "unknown code")])]
       else [])
   ++ (if Z.eqb rc (Connack.ACCEPTED codes)
       then flat_map
              (fun point =>
                 [Logged (Log INFO "subscribe %s" [AStr (Point.topic point)]);
                  Subscribed (Point.topic point)])
              points
       else []))%list.

(** [_on_mqtt_disconnect(self, client, userdata, rc)] *)
Definition _on_mqtt_disconnect (rc : Z) : list effect :=
  [Logged (Log INFO "Disconnect from MQTT broker with code %s" [AInt rc])].

(** The topics subscribed to, in order. *)
Definition subscriptions (effects : list effect) : list string :=
  flat_map (fun e => match e with Subscribed t => [t] | Logged _ => [] end)
           effects.

(** The entries logged at a level, in order. *)
Definition logged_at (lvl : level) (effects : list effect) : list log_entry :=
  flat_map (fun e =>
              match e with
              | Logged entry =>
                  match lvl, log_level entry with
                  | DEBUG, DEBUG | INFO, INFO | WARNING, WARNING
                  | ERROR, ERROR => [entry]
                  | _, _ => []
                  end
              | Subscribed _ => []
              end)
           effects.

(** ** What a written record owes to its rule *)

(** No value of the dict is [None]. *)
Definition no_none (d : dict pyval) : Prop :=
  Forall (fun kv => is_none (snd kv) = false) d.

(** The keys, and the expressions, of a mapping that may be absent. *)
Definition keys_of (o : option (dict string)) : list string :=
  match o with Some d => dict_keys d | None => [] end.

Definition exprs_of (o : option (dict string)) : list string :=
  match o with Some d => map snd d | None => [] end.

(** The rules whose pattern matches the topic, in their order. *)
Definition matching {L : Library} (points : list Point.t) (topic : string)
  : list Point.t :=
  filter (fun point => topic_matches_sub (Point.topic point) topic) points.

(** The record of the call is one the rule can have produced. *)
Definition written_for {L : Library} (point : Point.t) (c : write_call)
  : Prop :=
  into c = Point.database point
  /\ is_none (Rec.measurement (written c)) = false
  /\ (forall s, Point.measurement point = Obj (PStr s) ->
                Rec.measurement (written c) = PStr s)
  /\ Rec.fields (written c) <> []
  /\ no_none (Rec.fields (written c))
  /\ no_none (Rec.tags (written c))
  /\ NoDup (dict_keys (Rec.fields (written c)))
  /\ NoDup (dict_keys (Rec.tags (written c)))
  /\ incl (dict_keys (Rec.fields (written c))) (keys_of (Point.fields point))
  /\ incl (dict_keys (Rec.tags (written c))) (keys_of (Point.tags point)).

(** The ways the handler itself can raise [e] on a message: the payload
    does not decode and a rule matches; an expression of a matching rule
    does not compile; a matching rule has no [tags] key. *)
Definition may_raise {L : Library} (points : list Point.t)
           (message : Message.t) (e : exn) : Prop :=
  (some_rule_matches points (Message.topic message) = true
   /\ decode_utf8 (Message.payload message) = inl e)
  \/ (exists point text,
         In point (matching points (Message.topic message))
         /\ In text (exprs_of (Point.fields point)
                     ++ exprs_of (Point.tags point))%list
         /\ jsonpath_parse text = inl e)
  \/ (e = KeyError "tags"
      /\ exists point,
          In point (matching points (Message.topic message))
          /\ Point.tags point = None).

(** A rule with a tag mapping, all of whose expressions compile. *)
Definition sound_rule {L : Library} (point : Point.t) : Prop :=
  Point.tags point <> None
  /\ Forall (fun text => exists path, jsonpath_parse text = inr path)
            (exprs_of (Point.fields point) ++ exprs_of (Point.tags point))%list.

(** [sep.join(parts)] *)
Fixpoint join (sep : string) (parts : list string) : string :=
  match parts with
  | [] => EmptyString
  | [x] => x
  | x :: rest => x ++ sep ++ join sep rest
  end.

(** The calls of [create_database] for the rules, in order. *)
Definition rule_databases {L : Library} (points : list Point.t)
  : list client_call :=
  flat_map (fun point =>
              match Point.database point with
              | Some name => [Create_database name]
              | None => []
              end)
           points.

(** A call of [write_points] without the time of its record. *)
Definition untimed (c : write_call)
  : pyval * dict pyval * dict pyval * option string :=
  (Rec.measurement (written c), Rec.tags (written c), Rec.fields (written c),
   into c).

(** Two ends of a block that agree, their values related by [R]. *)
Definition same_end {A : Type} (R : A -> A -> Prop) (f1 f2 : flow A) : Prop :=
  match f1, f2 with
  | Normal a, Normal b => R a b
  | Returned, Returned => True
  | Raised e1, Raised e2 => e1 = e2
  | _, _ => False
  end.

(** Two blocks that, from any two worlds, end alike and append the same
    records but for their times. *)
Definition alike {A : Type} (R : A -> A -> Prop) (m1 m2 : M A) : Prop :=
  forall w1 w2, exists n1 n2,
    w_sink (snd (m1 w1)) = (w_sink w1 ++ n1)%list
    /\ w_sink (snd (m2 w2)) = (w_sink w2 ++ n2)%list
    /\ map untimed n1 = map untimed n2
    /\ same_end R (fst (m1 w1)) (fst (m2 w2)).

(** A block whose end does not depend on the world and that writes
    nothing. *)
Definition worldless {A : Type} (m : M A) : Prop :=
  (forall w1 w2, fst (m w1) = fst (m w2))
  /\ (forall w, w_sink (snd (m w)) = w_sink w).

(** The items of a mapping that may be absent. *)
Definition items_of (o : option (dict string)) : dict string :=
  match o with Some d => d | None => [] end.

(** Every value of [d] is what an expression the mapping gives for its
    key selects from [env]. *)
Definition selected_from {L : Library} (specs : dict string) (env : pyval)
           (d : dict pyval) : Prop :=
  Forall (fun kv =>
            exists text path,
              In (fst kv, text) specs
              /\ jsonpath_parse text = inr path
              /\ snd kv = _get_value_from_str_or_JSONPath (Compiled path) env)
         d.

(** The record of the call is read from [env] by the rule. *)
Definition read_from {L : Library} (env : pyval) (point : Point.t)
           (c : write_call) : Prop :=
  Rec.measurement (written c)
  = _get_value_from_str_or_JSONPath (Point.measurement point) env
  /\ selected_from (items_of (Point.fields point)) env (Rec.fields (written c))
  /\ selected_from (items_of (Point.tags point)) env (Rec.tags (written c)).

(** A rule on the same topics whose only field is read from the topic. *)
Definition seen : @Point.t model :=
  Scenario.rule "sensors/+/temp" "seen"
                (Some [("sensor", "$.topic[1]")]) (Some []).

(** Payload [{"value": null}] *)
Definition null_reading : Message.t :=
  Scenario.message_on "sensors/kitchen/temp"
                      ("{" ++ quoted "value" ++ ": null}").

(** ** The handler when the libraries raise *)

(** [path.find(msg)] (line 142) and [write_points] (line 135) are calls
    into libraries that the handler does not guard.  Above they are taken
    as returning; here they may raise instead, and the handler is written
    again, line for line, with those two calls free to fail. *)
Class Failing {L : Library} : Type := {
  (** the exception [path.find(data)] raises, when it does not return *)
  find_raises : JSONPath -> pyval -> option exn;
  (** the exception [write_points([record], database=db)] raises in a
      world, when it does not return; nothing is written then *)
  write_raises : world -> Rec.t -> option string -> option exn
}.

Section Unguarded.
Context {L : Library} {F : Failing}.

(** [_get_value_from_str_or_JSONPath(param, msg)], lines 137-144. *)
Definition _get_value_from_str_or_JSONPath_r (p : param) (msg : pyval)
  : M pyval :=
  match p with
  | Obj (PStr s) => ret (PStr s)
  | Compiled path =>
      match find_raises path msg with
      | Some e => raise e
      | None =>
          match jsonpath_find path msg with
          | [] => ret PNone
          | v :: _ => ret v
          end
      end
  | Obj _ => ret PNone
  end.

(** [self._influxdb.write_points([record], database=db)], line 135. *)
Definition write_points_r (r : Rec.t) (db : option string) : M unit :=
  fun w =>
    match write_raises w r db with
    | Some e => (Raised e, w)
    | None => write_points r db w
    end.

(** The loops of lines 110-114 and 124-128. *)
Fixpoint extract_r (specs : dict string) (msg : pyval) (acc : dict pyval)
  : M (dict pyval) :=
  match specs with
  | [] => ret acc
  | (key, text) :: rest =>
      path <- compile text ;;
      val <- _get_value_from_str_or_JSONPath_r (Compiled path) msg ;;
      if is_none val then extract_r rest msg acc
      else extract_r rest msg (dict_set key val acc)
  end.

Definition extract_if_present_r (d : option (dict string)) (msg : pyval)
  : M (dict pyval) :=
  match d with
  | Some specs => extract_r specs msg []
  | None => ret []
  end.

(** Lines 81-135, the body of the loop. *)
Definition loop_body_r (message : Message.t) (point : Point.t)
           (msg : option pyval) : M (option pyval) :=
  if topic_matches_sub (Point.topic point) (Message.topic message) then
    msg <- match msg with
           | None => build_msg message
           | Some m => ret m
           end ;;
    measurement <-
      _get_value_from_str_or_JSONPath_r (Point.measurement point) msg ;;
    if is_none measurement then
      logging WARNING "unknown measurement" [] ;; py_return
    else
      time <- now ;;
      fields <- extract_if_present_r (Point.fields point) msg ;;
      if dict_is_empty fields then
        logging WARNING "empty fields" [] ;; py_return
      else
        nfields <- len_of "fields" (Point.fields point) ;;
        when (negb (length fields =? nfields)%nat)
             (logging WARNING "different number of fields" []) ;;
        tags <- extract_if_present_r (Point.tags point) msg ;;
        ntags <- len_of "tags" (Point.tags point) ;;
        when (negb (length tags =? ntags)%nat)
             (logging WARNING "different number of tags" []) ;;
        let record := Rec.Build measurement time tags fields in
        logging DEBUG "influxdb write %s" [ARecord record] ;;
        write_points_r record (Point.database point) ;;
        ret (Some msg)
  else ret msg.

Fixpoint for_points_r (message : Message.t) (points : list Point.t)
         (msg : option pyval) : M unit :=
  match points with
  | [] => ret tt
  | point :: rest =>
      msg' <- loop_body_r message point msg ;;
      for_points_r message rest msg'
  end.

(** [_on_mqtt_message(self, client, userdata, message)] *)
Definition _on_mqtt_message_r (points : list Point.t) (message : Message.t)
  : M unit :=
  logging DEBUG "mqtt_on_message %s %s"
          [AStr (Message.topic message); ABytes (Message.payload message)] ;;
  for_points_r message points None.

(** The ways the handler can raise [e] when the libraries may: those of
    [may_raise], an exception out of [find], an exception out of
    [write_points]. *)
Definition may_raise_r (points : list Point.t) (message : Message.t)
           (e : exn) : Prop :=
  may_raise points message e
  \/ (exists path env, find_raises path env = Some e)
  \/ (exists w r db, write_raises w r db = Some e).

End Unguarded.

(** jsonpath_ng is not among the sources.  Of the failures of its [find]
    one is modelled here: an index step takes [len()] of the value it is
    applied to when that value is true, and a number has none, which
    raises [TypeError]. *)
Definition step_raises (s : step) (v : pyval) : option exn :=
  match s, v with
  | Index _, PInt z => if Z.eqb z 0 then None else Some TypeError
  | _, _ => None
  end.

Fixpoint first_failure (s : step) (found : list pyval) : option exn :=
  match found with
  | [] => None
  | v :: rest =>
      match step_raises s v with
      | Some e => Some e
      | None => first_failure s rest
      end
  end.

(** The steps from left to right: the first that fails on a value found
    so far. *)
Fixpoint find_failure (p : program) (found : list pyval) : option exn :=
  match p with
  | [] => None
  | s :: rest =>
      match first_failure s found with
      | Some e => Some e
      | None => find_failure rest (flat_map (step_find s) found)
      end
  end.

(** The model with [find] failing on numbers, and a sink that takes
    every record. *)
Definition strict : @Failing model := {|
  find_raises := fun (p : @JSONPath model) data => find_failure p [data];
  write_raises := fun _ _ _ => None
|}.

(** The model with a sink that refuses every record. *)
Definition sink_down : @Failing model := {|
  find_raises := fun _ _ => None;
  write_raises := fun _ _ _ => Some InfluxDBClientError
|}.

(** A reading delivered with QoS 1, and a rule whose field indexes the
    QoS. *)
Definition reading_qos1 : Message.t :=
  Message.Build "sensors/kitchen/temp" ("{" ++ quoted "value" ++ ": 21.5}")
                (PFloat "0.0") 1.

Definition indexes_qos : @Point.t model :=
  Scenario.rule "sensors/+/temp" "temperature"
                (Some [("level", "$.qos[0]")]) (Some []).

(** * Proofs *)

Local Open Scope list_scope.

(** ** The monad *)

Lemma bind_normal {A B : Type} (m : M A) (k : A -> M B) w a w' :
  m w = (Normal a, w') -> bind m k w = k a w'.
Proof. intros H. unfold bind. now rewrite H. Qed.

Lemma bind_returned {A B : Type} (m : M A) (k : A -> M B) w w' :
  m w = (Returned, w') -> bind m k w = (Returned, w').
Proof. intros H. unfold bind. now rewrite H. Qed.

Lemma bind_raised {A B : Type} (m : M A) (k : A -> M B) w e w' :
  m w = (Raised e, w') -> bind m k w = (Raised e, w').
Proof. intros H. unfold bind. now rewrite H. Qed.

Section Appends.
Variable P : write_call -> Prop.

Lemma appends_nothing {A : Type} (m : M A) :
  (forall w, w_sink (snd (m w)) = w_sink w) -> appends P m.
Proof.
  intros H w. exists []. rewrite H, app_nil_r. auto.
Qed.

Lemma appends_bind {A B : Type} (m : M A) (k : A -> M B) :
  appends P m -> (forall a, appends P (k a)) -> appends P (bind m k).
Proof.
  intros Hm Hk w. unfold bind.
  destruct (Hm w) as [n1 [E1 F1]].
  destruct (m w) as [[a | | e] w'] eqn:E; simpl in E1.
  - destruct (Hk a w') as [n2 [E2 F2]].
    exists (n1 ++ n2). rewrite E2, E1, app_assoc. split; auto.
    apply Forall_app; auto.
  - exists n1; auto.
  - exists n1; auto.
Qed.

Lemma appends_write r db :
  P (Write_points r db) -> appends P (write_points r db).
Proof.
  intros H w. exists [Write_points r db]. simpl. auto.
Qed.
End Appends.

Lemma appends_ret P {A : Type} (a : A) : appends P (ret a).
Proof. now apply appends_nothing. Qed.

Lemma appends_return P {A : Type} : appends P (@py_return A).
Proof. now apply appends_nothing. Qed.

Lemma appends_raise P {A : Type} e : appends P (@raise A e).
Proof. now apply appends_nothing. Qed.

Lemma appends_lift P {A : Type} (r : exn + A) : appends P (lift r).
Proof. destruct r; [apply appends_raise | apply appends_ret]. Qed.

Lemma appends_logging P lvl fmt args : appends P (logging lvl fmt args).
Proof. now apply appends_nothing. Qed.

Lemma appends_when P b m : appends P m -> appends P (when b m).
Proof. intros H. destruct b; simpl; [assumption | apply appends_ret]. Qed.

Create HintDb appends.
#[local] Hint Resolve appends_ret appends_return appends_raise appends_lift
  appends_logging appends_when appends_bind : appends.

Section HandlerFacts.
Context {L : Library}.

Lemma appends_compile P text : appends P (compile text).
Proof.
  apply appends_nothing. intros w. unfold compile, lift.
  destruct (jsonpath_parse text); reflexivity.
Qed.

Lemma appends_now P : appends P now.
Proof. now apply appends_nothing. Qed.

Lemma appends_extract P specs msg :
  forall acc, appends P (extract specs msg acc).
Proof.
  induction specs as [| [key text] rest IH]; intros acc; simpl.
  - apply appends_ret.
  - apply appends_bind; [apply appends_compile |].
    intros path. destruct (is_none _); apply IH.
Qed.

Lemma appends_extract_if_present P d msg :
  appends P (extract_if_present d msg).
Proof.
  destruct d; simpl; [apply appends_extract | apply appends_ret].
Qed.

Lemma appends_len_of P name d : appends P (len_of name d).
Proof. destruct d; simpl; auto with appends. Qed.

Lemma appends_build_msg P message : appends P (build_msg message).
Proof.
  unfold build_msg. apply appends_bind; [apply appends_lift |].
  intros payload. destruct (json_loads _); auto with appends.
Qed.

#[local] Hint Resolve appends_compile appends_now appends_extract_if_present
  appends_len_of appends_build_msg : appends.

(** The one call of [write_points] is under the test of line 116. *)
Lemma appends_loop_body message point msg :
  appends has_fields (loop_body message point msg).
Proof.
  unfold loop_body.
  destruct (topic_matches_sub _ _); [| apply appends_ret].
  apply appends_bind; [destruct msg; auto with appends |].
  intros m. destruct (is_none _); [auto with appends |].
  apply appends_bind; [auto with appends |]. intros time.
  apply appends_bind; [auto with appends |]. intros fields.
  destruct fields as [| f fields'] eqn:Ef; simpl dict_is_empty; cbv iota;
    [auto with appends |].
  apply appends_bind; [auto with appends |]. intros nfields.
  apply appends_bind; [auto with appends |]. intros _.
  apply appends_bind; [auto with appends |]. intros tags.
  apply appends_bind; [auto with appends |]. intros ntags.
  apply appends_bind; [auto with appends |]. intros _.
  apply appends_bind; [auto with appends |]. intros _.
  apply appends_bind; [| auto with appends].
  apply appends_write. unfold has_fields. simpl. discriminate.
Qed.

Lemma appends_for_points message points :
  forall msg, appends has_fields (for_points message points msg).
Proof.
  induction points as [| point rest IH]; intros msg; simpl.
  - apply appends_ret.
  - apply appends_bind; [apply appends_loop_body | apply IH].
Qed.

Lemma appends_on_mqtt_message points message :
  appends has_fields (_on_mqtt_message points message).
Proof.
  unfold _on_mqtt_message.
  apply appends_bind; [apply appends_logging |].
  intros _. apply appends_for_points.
Qed.

End HandlerFacts.

(** ** What the parts of the handler leave alone *)

Section Frames.
Context {L : Library}.

Lemma compile_quiet text : quiet (compile text).
Proof.
  intros w. unfold compile, lift.
  destruct (jsonpath_parse text); simpl; auto.
Qed.

Lemma extract_quiet specs msg : forall acc, quiet (extract specs msg acc).
Proof.
  induction specs as [| [key text] rest IH]; intros acc w; simpl.
  - auto.
  - unfold bind.
    destruct (compile_quiet text w) as (Hl & Hs & Hc & Hk).
    destruct (compile text w) as [[path | | e] w'] eqn:E; simpl in *; auto.
    destruct (is_none _);
      match goal with
      | |- context [extract rest msg ?a w'] =>
          destruct (IH a w') as (-> & -> & -> & ->)
      end; auto.
Qed.

Lemma extract_if_present_quiet d msg : quiet (extract_if_present d msg).
Proof.
  destruct d; simpl; [apply extract_quiet |].
  intros w. simpl. auto.
Qed.

(** Building the envelope writes nothing, and logs only when it
    returns. *)
Lemma build_msg_normal message w m w1 :
  build_msg message w = (Normal m, w1) -> w1 = w.
Proof.
  unfold build_msg, bind, lift.
  destruct (decode_utf8 _) as [e | text]; simpl; [discriminate |].
  destruct (json_loads _); simpl; [discriminate |].
  unfold ret. congruence.
Qed.

Lemma cached_or_built_normal message (msg : option pyval) w m w1 :
  match msg with None => build_msg message | Some m0 => ret m0 end w
    = (Normal m, w1) -> w1 = w.
Proof.
  destruct msg; [unfold ret; congruence | apply build_msg_normal].
Qed.

End Frames.

(** ** C1: no record without fields *)

(** C1.  Whatever the rules and the message, the handler only appends to
    the sink, and every record it appends has at least one field.  And for
    a rule whose pattern matches and whose measurement is resolved: when
    the evaluation of its field expressions ends with the empty field
    set, the body of the loop stops at [return] having written nothing
    and having logged the warning [empty fields]. *)
Theorem record_only_with_fields {L : Library} :
  (forall points message,
      appends has_fields (_on_mqtt_message points message))
  /\ (forall message point msg m w w1 w2,
         topic_matches_sub (Point.topic point) (Message.topic message) = true ->
         match msg with None => build_msg message | Some m0 => ret m0 end w
           = (Normal m, w1) ->
         is_none (_get_value_from_str_or_JSONPath (Point.measurement point) m)
           = false ->
         extract_if_present (Point.fields point) m (snd (now w1))
           = (Normal [], w2) ->
         fst (loop_body message point msg w) = Returned
         /\ w_sink (snd (loop_body message point msg w)) = w_sink w
         /\ w_log (snd (loop_body message point msg w))
            = w_log w ++ [Log WARNING "empty fields" []]).
Proof.
  split; [intros; apply appends_on_mqtt_message |].
  intros message point msg m w w1 w2 Hmatch Hmsg Hmeas Hfields.
  pose proof (cached_or_built_normal _ _ _ _ _ Hmsg) as ->.
  destruct (extract_if_present_quiet (Point.fields point) m (snd (now w)))
    as (Hl & Hs & _ & _).
  rewrite Hfields in Hl, Hs. simpl in Hl, Hs.
  unfold loop_body. rewrite Hmatch.
  rewrite (bind_normal _ _ _ _ _ Hmsg). rewrite Hmeas.
  rewrite (bind_normal now _ w (utcnow (w_clock w)) (snd (now w)) eq_refl).
  rewrite (bind_normal _ _ _ _ _ Hfields).
  simpl. rewrite Hl, Hs. auto.
Qed.

(** The empty payload on the temperature rule: the field expression
    selects nothing from the null payload, and the body returns. *)
Lemma record_only_with_fields_witness :
  fst (@loop_body model Scenario.empty Scenario.temperature None world0)
    = Returned
  /\ w_sink (snd (@loop_body model Scenario.empty Scenario.temperature None
                             world0)) = []
  /\ w_log (snd (@loop_body model Scenario.empty Scenario.temperature None
                            world0))
     = [Log WARNING "empty fields" []].
Proof.
  apply (proj2 (@record_only_with_fields model)
               Scenario.empty Scenario.temperature None
               (envelope Scenario.empty PNone) world0 world0
               (World [] [] ["$.payload.value"] 1 []));
    vm_compute; reflexivity.
Defined.

(** ** C3: a payload that is not JSON *)

Section Malformed.
Context {L : Library}.
Variables (message : Message.t) (text : string) (e : exn).
Hypothesis Hdecode : decode_utf8 (Message.payload message) = inr text.
Hypothesis Hloads :
  json_loads (if String.eqb text EmptyString then "null" else text) = inl e.

(** The diagnostic of line 90. *)
Let parse_error : log_entry :=
  Log ERROR "parse json: %s topic: %s payload: %s"
      [AExn e; AStr (Message.topic message); ABytes (Message.payload message)].

Lemma build_msg_malformed w :
  build_msg message w = (Returned, snd (logging ERROR (log_format parse_error)
                                                (log_args parse_error) w)).
Proof.
  unfold build_msg, bind. rewrite Hdecode. simpl.
  rewrite Hloads. reflexivity.
Qed.

(** The loop stops at the first rule that matches. *)
Lemma for_points_malformed points : forall w,
  for_points message points None w
  = if some_rule_matches points (Message.topic message)
    then (Returned, snd (logging ERROR (log_format parse_error)
                                 (log_args parse_error) w))
    else (Normal tt, w).
Proof.
  induction points as [| point rest IH]; intros w; simpl; [reflexivity |].
  unfold loop_body.
  destruct (topic_matches_sub (Point.topic point) (Message.topic message));
    simpl.
  - unfold bind at 1. unfold bind at 1.
    rewrite build_msg_malformed. reflexivity.
  - unfold bind at 1. simpl. apply IH.
Qed.
End Malformed.

(** C3.  A message whose payload decodes as UTF-8 but does not parse as
    JSON: the handler ends without raising (at the [return] of line 91
    when a rule matches the topic, at the end of the loop otherwise),
    writes nothing and compiles nothing; its log gains the entry of line
    76, which carries the topic and the raw payload, and when a rule
    matches the topic the error of line 90, which carries the exception,
    the topic and the raw payload. *)
Theorem malformed_json_dropped {L : Library}
    (points : list Point.t) (message : Message.t) (text : string) (e : exn)
    (w : world)
    (Hdecode : decode_utf8 (Message.payload message) = inr text)
    (Hloads : json_loads (if String.eqb text EmptyString then "null" else text)
              = inl e) :
  let topic := Message.topic message in
  let raw := Message.payload message in
  let r := _on_mqtt_message points message w in
  fst r = (if some_rule_matches points topic then Returned else Normal tt)
  /\ w_sink (snd r) = w_sink w
  /\ w_compiled (snd r) = w_compiled w
  /\ w_log (snd r)
     = w_log w
       ++ Log DEBUG "mqtt_on_message %s %s" [AStr topic; ABytes raw]
       :: (if some_rule_matches points topic
           then [Log ERROR "parse json: %s topic: %s payload: %s"
                     [AExn e; AStr topic; ABytes raw]]
           else []).
Proof.
  intros topic raw r.
  assert (E : r = for_points message points None
                    (snd (logging DEBUG "mqtt_on_message %s %s"
                                  [AStr topic; ABytes raw] w)))
    by reflexivity.
  rewrite (for_points_malformed message text e Hdecode Hloads) in E.
  fold topic in E. rewrite E.
  destruct (some_rule_matches points topic); simpl.
  - rewrite <- app_assoc. auto.
  - auto.
Qed.

(** The truncated payload of section 8, on the temperature rule. *)
Lemma malformed_json_dropped_witness :
  let r := @_on_mqtt_message model [Scenario.temperature] Scenario.truncated
                             world0 in
  fst r = Returned
  /\ w_sink (snd r) = []
  /\ w_compiled (snd r) = []
  /\ w_log (snd r)
     = [Log DEBUG "mqtt_on_message %s %s"
            [AStr "sensors/kitchen/temp"; ABytes ("{" ++ quoted "value" ++ ":")%string];
        Log ERROR "parse json: %s topic: %s payload: %s"
            [AExn JSONDecodeError; AStr "sensors/kitchen/temp";
             ABytes ("{" ++ quoted "value" ++ ":")%string]].
Proof.
  apply (@malformed_json_dropped model [Scenario.temperature]
           Scenario.truncated ("{" ++ quoted "value" ++ ":")%string
           JSONDecodeError world0);
    vm_compute; reflexivity.
Defined.

(** ** C9: a payload that is not UTF-8 *)

(** The decoding of line 83 stands before the [try] of line 87: its
    exception leaves the handler as soon as a rule matches the topic, and
    nothing but the entry of line 76 is logged. *)
Lemma undecodable_raises {L : Library} points message e w :
  decode_utf8 (Message.payload message) = inl e ->
  _on_mqtt_message points message w
  = (if some_rule_matches points (Message.topic message)
     then Raised e else Normal tt,
     snd (logging DEBUG "mqtt_on_message %s %s"
                  [AStr (Message.topic message);
                   ABytes (Message.payload message)] w)).
Proof.
  intros Hdecode. unfold _on_mqtt_message. unfold bind at 1. simpl.
  generalize (World
                (w_log w ++
                 [Log DEBUG "mqtt_on_message %s %s"
                      [AStr (Message.topic message);
                       ABytes (Message.payload message)]])
                (w_sink w) (w_compiled w) (w_clock w) (w_calls w)).
  induction points as [| point rest IH]; intros w1; simpl; [reflexivity |].
  unfold loop_body.
  destruct (topic_matches_sub (Point.topic point) (Message.topic message));
    simpl.
  - unfold bind at 1. unfold bind at 1. unfold build_msg, bind.
    rewrite Hdecode. reflexivity.
  - unfold bind at 1. simpl. apply IH.
Qed.

(** C9.  The payload FF on the temperature rule: the handler does not
    return, it raises [UnicodeDecodeError]; the log holds the entry of
    line 76 and no diagnostic of the failure; nothing is written. *)
Theorem undecodable_payload_raises :
  @_on_mqtt_message model [Scenario.temperature] Scenario.undecodable world0
  = (Raised UnicodeDecodeError,
     World [Log DEBUG "mqtt_on_message %s %s"
                [AStr "sensors/kitchen/temp";
                 ABytes (String (ascii_of_nat 255) EmptyString)]]
           [] [] 0 []).
Proof.
  rewrite (undecodable_raises _ _ UnicodeDecodeError) by reflexivity.
  reflexivity.
Qed.

(** ** C2: a rule that yields nothing, and the rules after it *)

(** A [return] in the body of the loop ends the loop. *)
Lemma returned_ends_loop {L : Library} message point rest msg w w' :
  loop_body message point msg w = (Returned, w') ->
  for_points message (point :: rest) msg w = (Returned, w').
Proof. intros H. simpl. now apply bind_returned. Qed.

(** C2.  Two rules on the same pattern, a reading that has the member of
    the second rule and not that of the first: the first rule ends at the
    [return] of line 118 and the second, which alone writes its record,
    is never reached; nothing is written. *)
Theorem later_rule_not_processed :
  let both := @_on_mqtt_message model
                [Scenario.humidity; Scenario.temperature]
                Scenario.reading world0 in
  let alone := @_on_mqtt_message model [Scenario.temperature]
                 Scenario.reading world0 in
  fst both = Returned
  /\ w_sink (snd both) = []
  /\ w_compiled (snd both) = ["$.payload.humidity"]
  /\ fst alone = Normal tt
  /\ w_sink (snd alone)
     = [Write_points
          (Rec.Build (PStr "temperature") "1970-01-01T00:00:00Z"
                     [("sensor", PStr "kitchen")]
                     [("value", PFloat "21.5")])
          None].
Proof. vm_compute. repeat split. Qed.

(** ** C10: a rule without tags *)

(** C10.  The temperature rule without the [tags] key, on a reading that
    gives its field: [len(point['tags'])] at line 130 raises [KeyError]
    and nothing is written; with [tags] present and empty the record is
    written, with no tags. *)
Theorem absent_tags_raise :
  let absent := @_on_mqtt_message model [Scenario.untagged]
                  Scenario.reading world0 in
  let empty := @_on_mqtt_message model [Scenario.tagless]
                 Scenario.reading world0 in
  fst absent = Raised (KeyError "tags")
  /\ w_sink (snd absent) = []
  /\ fst empty = Normal tt
  /\ w_sink (snd empty)
     = [Write_points
          (Rec.Build (PStr "temperature") "1970-01-01T00:00:00Z"
                     []
                     [("value", PFloat "21.5")])
          None].
Proof. vm_compute. repeat split. Qed.

(** ** C4: the topic matcher *)

Lemma segment_matches_eqb p t :
  String.eqb p "+" || String.eqb p t = true <-> segment_matches p t.
Proof.
  unfold segment_matches.
  rewrite orb_true_iff, !String.eqb_eq. reflexivity.
Qed.

(** Without "#" the pattern and the topic are matched segment by
    segment. *)
Lemma match_segments_plain ps : ~ In "#" ps ->
  forall ts, match_segments ps ts = true <-> Forall2 segment_matches ps ts.
Proof.
  induction ps as [| p ps IH]; intros Hin ts; simpl.
  - destruct ts; split; intros H; try constructor; try discriminate.
    inversion H.
  - destruct (String.eqb_spec p "#") as [-> | Hp];
      [exfalso; apply Hin; now left |].
    assert (Hin' : ~ In "#" ps) by (intros H; apply Hin; now right).
    destruct ts as [| t ts].
    + split; intros H; [discriminate | inversion H].
    + destruct (String.eqb p "+" || String.eqb p t) eqn:E.
      * apply segment_matches_eqb in E. rewrite (IH Hin' ts).
        split; intros H; [now constructor | now inversion H].
      * split; intros H; [discriminate |].
        inversion H; subst.
        match goal with
        | Hs : segment_matches p t |- _ =>
            apply segment_matches_eqb in Hs; congruence
        end.
Qed.

(** A final "#" takes whatever follows the segments matched before it. *)
Lemma match_segments_hash ps : ~ In "#" ps ->
  forall topic,
    match_segments (ps ++ ["#"]) topic = true
    <-> exists ts rest, topic = ts ++ rest /\ Forall2 segment_matches ps ts.
Proof.
  induction ps as [| p ps IH]; intros Hin topic; simpl.
  - split; [intros _ | reflexivity].
    exists [], topic. split; [reflexivity | constructor].
  - destruct (String.eqb_spec p "#") as [-> | Hp];
      [exfalso; apply Hin; now left |].
    assert (Hin' : ~ In "#" ps) by (intros H; apply Hin; now right).
    destruct topic as [| t topic].
    + split; [discriminate |].
      intros (ts & rest & E & F). inversion F; subst. discriminate.
    + destruct (String.eqb p "+" || String.eqb p t) eqn:E.
      * apply segment_matches_eqb in E. rewrite (IH Hin' topic).
        split.
        -- intros (ts & rest & -> & F).
           exists (t :: ts), rest. split; [reflexivity | now constructor].
        -- intros (ts & rest & E' & F). inversion F; subst.
           injection E' as -> ->. eauto.
      * split; [discriminate |].
        intros (ts & rest & E' & F). inversion F; subst.
        injection E' as -> ->.
        match goal with
        | Hs : segment_matches p _ |- _ =>
            apply segment_matches_eqb in Hs; congruence
        end.
Qed.

(** C4.  The five vectors of section 8, and the rules of section 4.1: a
    pattern without "#" matches the topics that have a segment for each of
    its segments, any segment under "+" and the same segment under a
    literal; the same pattern closed by "#" matches those topics followed
    by any segments, none included. *)
Theorem topic_matcher_vectors_and_rules :
  matches "a/+/c" "a/b/c" = true
  /\ matches "a/+/c" "a/b/b/c" = false
  /\ matches "a/#" "a/b/c" = true
  /\ matches "a/#" "a" = true
  /\ matches "a/+" "a" = false
  /\ (forall pattern topic,
         matches pattern topic
         = match_segments (split "/" pattern) (split "/" topic))
  /\ (forall ps, ~ In "#" ps ->
        (forall ts, match_segments ps ts = true
                    <-> Forall2 segment_matches ps ts)
        /\ (forall topic,
               match_segments (ps ++ ["#"]) topic = true
               <-> exists ts rest,
                   topic = ts ++ rest /\ Forall2 segment_matches ps ts)).
Proof.
  repeat (split; [reflexivity |]).
  intros ps Hps. split.
  - now apply match_segments_plain.
  - now apply match_segments_hash.
Qed.

(** The pattern [a/+] and its closure [a/+/#] on the topic [a/b/c/d]. *)
Lemma topic_matcher_vectors_and_rules_witness :
  ~ In "#" ["a"; "+"]
  /\ (match_segments ["a"; "+"] ["a"; "b"] = true
      <-> Forall2 segment_matches ["a"; "+"] ["a"; "b"])
  /\ (match_segments (["a"; "+"] ++ ["#"]) ["a"; "b"; "c"; "d"] = true
      <-> exists ts rest,
          ["a"; "b"; "c"; "d"] = ts ++ rest
          /\ Forall2 segment_matches ["a"; "+"] ts).
Proof.
  assert (H : ~ In "#" ["a"; "+"]).
  { simpl. intros [H | [H | []]]; discriminate. }
  split; [exact H |].
  destruct (proj2 (proj2 (proj2 (proj2 (proj2 (proj2
              topic_matcher_vectors_and_rules))))) ["a"; "+"] H) as [P Q].
  split; [apply P | apply Q].
Defined.

(** ** C8: the empty payload *)

Section NoValue.
Context {L : Library}.

(** The handler is the loop, run after the entry of line 76. *)
Lemma on_mqtt_message_loop points message w :
  _on_mqtt_message points message w
  = for_points message points None
      (snd (logging DEBUG "mqtt_on_message %s %s"
                    [AStr (Message.topic message);
                     ABytes (Message.payload message)] w)).
Proof. reflexivity. Qed.

(** Rules that do not match leave the loop where it was. *)
Lemma for_points_skip message pre : forall rest msg w,
  some_rule_matches pre (Message.topic message) = false ->
  for_points message (pre ++ rest) msg w = for_points message rest msg w.
Proof.
  induction pre as [| point pre IH]; intros rest msg w H; [reflexivity |].
  simpl in H. apply orb_false_iff in H as [Hp Hpre].
  simpl. unfold loop_body at 1. rewrite Hp.
  unfold bind at 1. simpl. now apply IH.
Qed.

(** A rule whose only field yields no value returns and writes
    nothing, whatever its measurement. *)
Lemma loop_body_no_value message point msg m w key text path :
  topic_matches_sub (Point.topic point) (Message.topic message) = true ->
  match msg with None => build_msg message | Some m0 => ret m0 end w
    = (Normal m, w) ->
  Point.fields point = Some [(key, text)] ->
  jsonpath_parse text = inr path ->
  _get_value_from_str_or_JSONPath (Compiled path) m = PNone ->
  fst (loop_body message point msg w) = Returned
  /\ w_sink (snd (loop_body message point msg w)) = w_sink w.
Proof.
  intros Hmatch Hmsg Hfields Hparse Hval.
  unfold loop_body. rewrite Hmatch.
  rewrite (bind_normal _ _ _ _ _ Hmsg).
  destruct (is_none _); [split; reflexivity |].
  rewrite (bind_normal now _ w (utcnow (w_clock w)) (snd (now w)) eq_refl).
  rewrite Hfields.
  assert (E : extract_if_present (Some [(key, text)]) m (snd (now w))
              = (Normal [],
                 World (w_log w) (w_sink w) (w_compiled w ++ [text])
                       (S (w_clock w)) (w_calls w))).
  { simpl. unfold bind, compile. rewrite Hparse. simpl.
    simpl in Hval. rewrite Hval. reflexivity. }
  rewrite (bind_normal _ _ _ _ _ E). split; reflexivity.
Qed.
End NoValue.

(** After its first step on a null payload, a path has no match left. *)
Lemma steps_on_nothing steps :
  fold_left (fun found s => flat_map (step_find s) found) steps [] = [].
Proof. induction steps; simpl; auto. Qed.

Lemma find_into_null_payload message steps :
  find (into_payload steps) (envelope message PNone)
  = match steps with [] => [PNone] | _ :: _ => [] end.
Proof.
  unfold find, into_payload. simpl.
  destruct steps as [| s steps]; simpl; [reflexivity |].
  destruct s; simpl; apply steps_on_nothing.
Qed.

Lemma no_value_in_null_payload message steps :
  @_get_value_from_str_or_JSONPath model
     (@Compiled model (into_payload steps)) (envelope message PNone) = PNone.
Proof.
  unfold _get_value_from_str_or_JSONPath.
  change (@jsonpath_find model) with find.
  rewrite find_into_null_payload. destruct steps; reflexivity.
Qed.

(** ** The loop over a mapping *)

Section Extraction.
Context {L : Library}.

Lemma dict_set_fresh {V : Type} k (v : V) acc :
  ~ In k (dict_keys acc) -> dict_set k v acc = acc ++ [(k, v)].
Proof.
  induction acc as [| [k' v'] acc IH]; simpl; intros H; [reflexivity |].
  destruct (String.eqb_spec k k') as [-> | Hk].
  - exfalso. apply H. now left.
  - rewrite IH; [reflexivity |]. intros Hin. apply H. now right.
Qed.

Lemma partial_extraction_keys specs msg k :
  In k (dict_keys (partial_extraction specs msg)) -> In k (dict_keys specs).
Proof.
  induction specs as [| [key text] rest IH]; simpl; [auto |].
  unfold dict_keys. rewrite map_app, in_app_iff.
  intros [H | H]; [| right; now apply IH].
  left. destruct (jsonpath_parse text); [destruct H |].
  destruct (is_none _); simpl in H; [destruct H |].
  destruct H as [H | []]. exact H.
Qed.

Lemma compile_ok text path w :
  jsonpath_parse text = inr path ->
  compile text w
  = (Normal path,
     World (w_log w) (w_sink w) (w_compiled w ++ [text]) (w_clock w)
           (w_calls w)).
Proof. intros H. unfold compile. rewrite H. reflexivity. Qed.

Lemma compile_fails text e w :
  jsonpath_parse text = inl e ->
  compile text w
  = (Raised e,
     World (w_log w) (w_sink w) (w_compiled w ++ [text]) (w_clock w)
           (w_calls w)).
Proof. intros H. unfold compile. rewrite H. reflexivity. Qed.

Lemma extract_cons key text rest msg acc :
  extract ((key, text) :: rest) msg acc
  = bind (compile text)
      (fun path =>
         if is_none (_get_value_from_str_or_JSONPath (Compiled path) msg)
         then extract rest msg acc
         else extract rest msg
                (dict_set key
                   (_get_value_from_str_or_JSONPath (Compiled path) msg)
                   acc)).
Proof. reflexivity. Qed.

Lemma partial_extraction_cons key text rest msg path :
  jsonpath_parse text = inr path ->
  partial_extraction ((key, text) :: rest) msg
  = (if is_none (_get_value_from_str_or_JSONPath (Compiled path) msg)
     then []
     else [(key, _get_value_from_str_or_JSONPath (Compiled path) msg)])
    ++ partial_extraction rest msg.
Proof. intros H. unfold partial_extraction. simpl. now rewrite H. Qed.

(** With unique keys and expressions that compile, the loop computes
    the field set of section 4.4 and compiles every expression once,
    in order. *)
Lemma extract_spec msg specs :
  NoDup (dict_keys specs) -> compilable specs ->
  forall acc w,
    (forall k, In k (dict_keys specs) -> ~ In k (dict_keys acc)) ->
    extract specs msg acc w
    = (Normal (acc ++ partial_extraction specs msg),
       World (w_log w) (w_sink w) (w_compiled w ++ map snd specs)
             (w_clock w) (w_calls w)).
Proof.
  induction specs as [| [key text] rest IH]; intros Hnd Hc acc w Hfresh.
  - simpl. rewrite !app_nil_r. destruct w; reflexivity.
  - simpl in Hnd. inversion Hnd as [| ? ? Hkey Hnd']; subst.
    inversion Hc as [| ? ? [path Hpath] Hc']; subst. simpl in Hpath.
    rewrite extract_cons.
    rewrite (bind_normal _ _ _ _ _ (compile_ok _ _ w Hpath)).
    rewrite (partial_extraction_cons _ _ _ _ _ Hpath).
    destruct (is_none (_get_value_from_str_or_JSONPath (Compiled path) msg))
      eqn:Enone.
    + rewrite IH; auto.
      * simpl. rewrite <- app_assoc. reflexivity.
      * intros k Hk. apply Hfresh. now right.
    + rewrite dict_set_fresh by (apply Hfresh; now left).
      rewrite IH; auto.
      * simpl. rewrite <- !app_assoc. reflexivity.
      * intros k Hk. unfold dict_keys. rewrite map_app, in_app_iff.
        intros [Hin | [<- | []]].
        -- apply (Hfresh k); [now right | exact Hin].
        -- apply Hkey. exact Hk.
Qed.

(** The first expression that does not compile ends the loop with the
    exception of the parser; those before it were compiled. *)
Lemma extract_raises msg pre key text post e :
  compilable pre -> jsonpath_parse text = inl e ->
  forall acc w,
    extract (pre ++ (key, text) :: post) msg acc w
    = (Raised e,
       World (w_log w) (w_sink w) (w_compiled w ++ map snd pre ++ [text])
             (w_clock w) (w_calls w)).
Proof.
  intros Hc Hbad. induction pre as [| [k t] pre IH]; intros acc w.
  - simpl app. rewrite extract_cons.
    rewrite (bind_raised _ _ _ _ _ (compile_fails _ _ w Hbad)).
    reflexivity.
  - inversion Hc as [| ? ? [path Hpath] Hc']; subst. simpl in Hpath.
    simpl app. rewrite extract_cons.
    rewrite (bind_normal _ _ _ _ _ (compile_ok _ _ w Hpath)).
    destruct (is_none _); rewrite (IH Hc'); simpl;
      rewrite <- app_assoc; reflexivity.
Qed.

(** Each run of the loop compiles every expression of the mapping. *)
Lemma extract_compiles msg specs :
  compilable specs ->
  forall acc w,
    w_compiled (snd (extract specs msg acc w))
    = w_compiled w ++ map snd specs
    /\ exists found, fst (extract specs msg acc w) = Normal found.
Proof.
  induction specs as [| [key text] rest IH]; intros Hc acc w.
  - simpl. rewrite app_nil_r. eauto.
  - inversion Hc as [| ? ? [path Hpath] Hc']; subst. simpl in Hpath.
    rewrite extract_cons.
    rewrite (bind_normal _ _ _ _ _ (compile_ok _ _ w Hpath)).
    destruct (is_none _);
      match goal with
      | |- context [extract rest msg ?a ?w'] =>
          destruct (IH Hc' a w') as [-> Hn]
      end; simpl; rewrite <- app_assoc; auto.
Qed.
End Extraction.

(** ** C6: when the expressions are compiled *)

Section Startup.
Context {L : Library}.

Lemma compiles_nothing_bind {A B : Type} (m : M A) (k : A -> M B) :
  compiles_nothing m -> (forall a, compiles_nothing (k a)) ->
  compiles_nothing (bind m k).
Proof.
  intros Hm Hk w. unfold bind.
  destruct (Hm w) as [Hc [a Ha]].
  destruct (m w) as [[a' | | e] w'] eqn:E; simpl in *; try discriminate.
  destruct (Hk a' w') as [Hc' Hn]. rewrite Hc', Hc. auto.
Qed.

Lemma compiles_nothing_call c : compiles_nothing (call c).
Proof. intros w. simpl. eauto. Qed.

Lemma compiles_nothing_ret {A : Type} (a : A) : compiles_nothing (ret a).
Proof. intros w. simpl. eauto. Qed.

Lemma compiles_nothing_logging lvl fmt args :
  compiles_nothing (logging lvl fmt args).
Proof. intros w. simpl. eauto. Qed.

Lemma compiles_nothing_create_databases points :
  compiles_nothing (create_databases points).
Proof.
  induction points as [| point rest IH]; simpl.
  - apply compiles_nothing_ret.
  - apply compiles_nothing_bind; [| intros _; exact IH].
    destruct (Point.database point);
      [apply compiles_nothing_call | apply compiles_nothing_ret].
Qed.

Lemma compiles_nothing_init config : compiles_nothing (__init__ config).
Proof.
  unfold __init__.
  repeat (apply compiles_nothing_bind;
          [first [ apply compiles_nothing_call
                 | apply compiles_nothing_create_databases
                 | apply compiles_nothing_logging
                 | destruct (truthy _);
                   [apply compiles_nothing_call | apply compiles_nothing_ret]]
          | intros _]).
  apply compiles_nothing_call.
Qed.
End Startup.

(** C6, as the code has it.  [__init__] compiles no expression and ends
    normally whatever the expressions of the rules are.  The expressions
    are compiled while a message is handled: each run of the loop over a
    mapping compiles every expression of the mapping, in order; and, for
    a rule that matches with its measurement resolved, the first field
    expression that does not compile raises the exception of the parser
    out of the body of the loop and out of the loop, after the
    expressions before it were compiled, with nothing written. *)
Theorem paths_compiled_while_handling {L : Library} :
  (forall config, compiles_nothing (__init__ config))
  /\ (forall specs msg acc w,
         compilable specs ->
         w_compiled (snd (extract specs msg acc w))
         = w_compiled w ++ map snd specs)
  /\ (forall message point rest msg env w pre key text post e,
         topic_matches_sub (Point.topic point) (Message.topic message) = true ->
         match msg with None => build_msg message | Some m0 => ret m0 end w
           = (Normal env, w) ->
         is_none (_get_value_from_str_or_JSONPath (Point.measurement point) env)
           = false ->
         Point.fields point = Some (pre ++ (key, text) :: post) ->
         compilable pre ->
         jsonpath_parse text = inl e ->
         loop_body message point msg w
         = (Raised e,
            World (w_log w) (w_sink w) (w_compiled w ++ map snd pre ++ [text])
                  (S (w_clock w)) (w_calls w))
         /\ fst (for_points message (point :: rest) msg w) = Raised e).
Proof.
  split; [apply compiles_nothing_init |].
  split; [intros specs msg acc w Hc; now apply extract_compiles |].
  intros message point rest msg env w pre key text post e
         Hmatch Hmsg Hmeas Hfields Hc Hbad.
  assert (E : loop_body message point msg w
              = (Raised e,
                 World (w_log w) (w_sink w)
                       (w_compiled w ++ map snd pre ++ [text])
                       (S (w_clock w)) (w_calls w))).
  { unfold loop_body. rewrite Hmatch.
    rewrite (bind_normal _ _ _ _ _ Hmsg). rewrite Hmeas.
    rewrite (bind_normal now _ w (utcnow (w_clock w)) (snd (now w)) eq_refl).
    rewrite Hfields. unfold extract_if_present.
    rewrite (bind_raised _ _ _ _ _
               (extract_raises env pre key text post e Hc Hbad [] (snd (now w)))).
    reflexivity. }
  split; [exact E |].
  simpl. rewrite (bind_raised _ _ _ _ _ E). reflexivity.
Qed.

(** The rule whose field expression ends in a dot, on a reading. *)
Lemma paths_compiled_while_handling_witness :
  @loop_body model Scenario.reading Scenario.broken None world0
  = (Raised JsonPathParserError, World [] [] ["$.payload."] 1 [])
  /\ fst (@for_points model Scenario.reading
            (Scenario.broken :: [Scenario.temperature]) None world0)
     = Raised JsonPathParserError.
Proof.
  apply (proj2 (proj2 (@paths_compiled_while_handling model))
           Scenario.reading Scenario.broken [Scenario.temperature] None
           (envelope Scenario.reading (PDict [("value", PFloat "21.5")]))
           world0 [] "value" "$.payload." [] JsonPathParserError);
    try reflexivity.
  constructor.
Defined.

(** C6, as the spec has it, fails.  With a rule whose field expression
    is malformed, startup compiles nothing and ends normally, and the
    malformed expression first surfaces when a message is handled; and a
    well-formed expression is compiled again for each message. *)
Lemma malformed_path_surfaces_at_message :
  let started := @__init__ model (Scenario.config [Scenario.broken]) world0 in
  let handled := @_on_mqtt_message model [Scenario.broken] Scenario.reading
                   (snd started) in
  let once := @_on_mqtt_message model [Scenario.temperature]
                Scenario.reading world0 in
  let twice := @_on_mqtt_message model [Scenario.temperature]
                 Scenario.reading (snd once) in
  fst started = Normal tt
  /\ w_compiled (snd started) = []
  /\ fst handled = Raised JsonPathParserError
  /\ w_compiled (snd handled) = ["$.payload."]
  /\ w_compiled (snd twice)
     = ["$.payload.value"; "$.topic[1]"; "$.payload.value"; "$.topic[1]"].
Proof. vm_compute. repeat split. Qed.

(** ** C7: partial extraction *)

Section Partial.
Context {L : Library}.
Variables (message : Message.t) (point : Point.t) (msg : option pyval).
Variables (env : pyval) (w : world) (fs : dict string).
Hypothesis Hmatch :
  topic_matches_sub (Point.topic point) (Message.topic message) = true.
Hypothesis Hmsg :
  match msg with None => build_msg message | Some m0 => ret m0 end w
  = (Normal env, w).
Hypothesis Hmeas :
  is_none (_get_value_from_str_or_JSONPath (Point.measurement point) env)
  = false.
Hypothesis Hfields : Point.fields point = Some fs.
Hypothesis Hfs : NoDup (dict_keys fs) /\ compilable fs.
Hypothesis Hsome : partial_extraction fs env <> [].

(** The body of the loop up to line 121: what is left to run, and the
    world it runs in. *)
Lemma loop_body_after_fields :
  loop_body message point msg w
  = after_fields point env
      (_get_value_from_str_or_JSONPath (Point.measurement point) env)
      (utcnow (w_clock w)) (partial_extraction fs env)
      (World (w_log w
              ++ count_warning "fields"
                   (length (partial_extraction fs env)) (length fs))
             (w_sink w) (w_compiled w ++ map snd fs) (S (w_clock w))
             (w_calls w)).
Proof.
  destruct Hfs as [Hnd Hc].
  unfold loop_body. rewrite Hmatch.
  rewrite (bind_normal _ _ _ _ _ Hmsg). rewrite Hmeas.
  rewrite (bind_normal now _ w (utcnow (w_clock w)) (snd (now w)) eq_refl).
  rewrite Hfields. unfold extract_if_present at 1.
  rewrite (bind_normal _ _ _ _ _
             (extract_spec env fs Hnd Hc [] (snd (now w))
                           (fun _ _ (H : In _ []) => H))).
  cbn [app now snd w_log w_sink w_clock w_calls w_compiled].
  destruct (partial_extraction fs env) as [| f rest] eqn:Ef;
    [contradiction |].
  cbn [dict_is_empty]. unfold len_of at 1.
  rewrite (bind_normal (ret (length fs)) _ _ (length fs) _ eq_refl).
  unfold count_warning.
  destruct (length (f :: rest) =? length fs)%nat.
  - simpl negb. unfold when at 1.
    rewrite (bind_normal (ret tt) _ _ tt _ eq_refl).
    rewrite app_nil_r. reflexivity.
  - simpl negb. unfold when at 1.
    erewrite (bind_normal (logging _ _ _)) by reflexivity.
    reflexivity.
Qed.
End Partial.

Section Tags.
Context {L : Library}.
Variables (point : Point.t) (env measurement : pyval) (time : string).
Variables (fields : dict pyval) (w : world).

(** With a tag mapping, the record is logged and written. *)
Lemma after_fields_tagged ts :
  Point.tags point = Some ts ->
  NoDup (dict_keys ts) /\ compilable ts ->
  let record :=
    Rec.Build measurement time (partial_extraction ts env) fields in
  after_fields point env measurement time fields w
  = (Normal (Some env),
     World (w_log w
            ++ count_warning "tags"
                 (length (partial_extraction ts env)) (length ts)
            ++ [Log DEBUG "influxdb write %s" [ARecord record]])
           (w_sink w ++ [Write_points record (Point.database point)])
           (w_compiled w ++ map snd ts) (w_clock w) (w_calls w)).
Proof.
  intros Htags [Hnd Hc] record. unfold after_fields.
  rewrite Htags. unfold extract_if_present.
  rewrite (bind_normal _ _ _ _ _
             (extract_spec env ts Hnd Hc [] w (fun _ _ (H : In _ []) => H))).
  cbn [app]. unfold len_of.
  rewrite (bind_normal (ret (length ts)) _ _ (length ts) _ eq_refl).
  unfold count_warning. fold record.
  destruct (length (partial_extraction ts env) =? length ts)%nat;
    unfold bind, when, logging, write_points, ret; simpl;
    rewrite <- ?app_assoc; reflexivity.
Qed.

(** Without one, line 130 raises. *)
Lemma after_fields_untagged :
  Point.tags point = None ->
  after_fields point env measurement time fields w
  = (Raised (KeyError "tags"), w).
Proof.
  intros Htags. unfold after_fields. rewrite Htags. reflexivity.
Qed.
End Tags.




(** A rule without the [tags] key whose fields are found: line 130
    raises once the fields are counted, before anything is written. *)
Lemma untagged_rule_raises {L : Library} message point msg env w fs :
  topic_matches_sub (Point.topic point) (Message.topic message) = true ->
  match msg with None => build_msg message | Some m0 => ret m0 end w
    = (Normal env, w) ->
  is_none (_get_value_from_str_or_JSONPath (Point.measurement point) env)
    = false ->
  Point.fields point = Some fs ->
  NoDup (dict_keys fs) /\ compilable fs ->
  partial_extraction fs env <> [] ->
  Point.tags point = None ->
  loop_body message point msg w
  = (Raised (KeyError "tags"),
     World (w_log w
            ++ count_warning "fields"
                 (length (partial_extraction fs env)) (length fs))
           (w_sink w) (w_compiled w ++ map snd fs) (S (w_clock w))
           (w_calls w)).
Proof.
  intros Hmatch Hmsg Hmeas Hfields Hfs Hsome Htags.
  rewrite (loop_body_after_fields message point msg env w fs
             Hmatch Hmsg Hmeas Hfields Hfs Hsome).
  now apply after_fields_untagged.
Qed.

(** * Further properties of the code *)

(** ** Rules that do not match *)

Lemma bind_ext {A B : Type} (m : M A) (k1 k2 : A -> M B) w :
  (forall a w', k1 a w' = k2 a w') -> bind m k1 w = bind m k2 w.
Proof.
  intros H. unfold bind. destruct (m w) as [[a | | e] w']; auto.
Qed.

Lemma for_points_matching {L : Library} message points : forall msg w,
  for_points message points msg w
  = for_points message (matching points (Message.topic message)) msg w.
Proof.
  induction points as [| point rest IH]; intros msg w; [reflexivity |].
  simpl matching.
  destruct (topic_matches_sub (Point.topic point) (Message.topic message))
    eqn:E.
  - simpl. apply bind_ext. intros a w'. apply IH.
  - simpl. unfold loop_body at 1. rewrite E.
    unfold bind at 1. simpl. apply IH.
Qed.

(** X1.  The rules whose pattern does not match the topic of a message
    have no part in its handling: the handler does, and leaves the world,
    as it would with the matching rules alone. *)
Theorem unmatched_rules_are_inert {L : Library} points message w :
  _on_mqtt_message points message w
  = _on_mqtt_message (matching points (Message.topic message)) message w.
Proof.
  rewrite !on_mqtt_message_loop. apply for_points_matching.
Qed.

(** X2.  A message on a topic that no rule matches is never looked into:
    whatever its payload, undecodable or not JSON, the handler falls
    through having logged the entry of line 76 and nothing else, written
    nothing, compiled nothing and read no clock. *)
Theorem unmatched_message_ignored {L : Library} points message w
    (Hnone : some_rule_matches points (Message.topic message) = false) :
  _on_mqtt_message points message w
  = (Normal tt,
     World (w_log w
            ++ [Log DEBUG "mqtt_on_message %s %s"
                    [AStr (Message.topic message);
                     ABytes (Message.payload message)]])
           (w_sink w) (w_compiled w) (w_clock w) (w_calls w)).
Proof.
  rewrite on_mqtt_message_loop.
  rewrite <- (app_nil_r points).
  rewrite (for_points_skip message points [] None _ Hnone).
  reflexivity.
Qed.

(** The undecodable payload, with a rule for other topics only. *)
Lemma unmatched_message_ignored_witness :
  @_on_mqtt_message model [Scenario.partial] Scenario.undecodable world0
  = (Normal tt,
     World [Log DEBUG "mqtt_on_message %s %s"
                [AStr "sensors/kitchen/temp";
                 ABytes (String (ascii_of_nat 255) EmptyString)]]
           [] [] 0 []).
Proof.
  apply (@unmatched_message_ignored model [Scenario.partial]
           Scenario.undecodable world0).
  reflexivity.
Defined.

(** ** The topic in the envelope *)

Lemma split_not_nil sep s : split sep s <> [].
Proof.
  destruct s as [| c s]; simpl; [discriminate |].
  destruct (Ascii.eqb c sep); [discriminate |].
  destruct (split sep s); discriminate.
Qed.

Lemma join_split sep s : join (String sep EmptyString) (split sep s) = s.
Proof.
  induction s as [| c s IH]; [reflexivity |].
  simpl split. destruct (Ascii.eqb_spec c sep) as [-> | Hc].
  - pose proof (split_not_nil sep s) as Hn.
    destruct (split sep s) as [| x xs] eqn:E; [contradiction |].
    change (join (String sep EmptyString) (EmptyString :: x :: xs))
      with (String sep (join (String sep EmptyString) (x :: xs))).
    now rewrite IH.
  - pose proof (split_not_nil sep s) as Hn.
    destruct (split sep s) as [| x xs] eqn:E; [contradiction |].
    destruct xs as [| y ys].
    + simpl in IH. simpl. now rewrite IH.
    + change (join (String sep EmptyString) (String c x :: y :: ys))
        with (String c (join (String sep EmptyString) (x :: y :: ys))).
      now rewrite IH.
Qed.

Lemma split_segments_clean sep s :
  Forall (fun seg => ~ In sep (list_ascii_of_string seg)) (split sep s).
Proof.
  induction s as [| c s IH]; simpl.
  - constructor; [intros [] | constructor].
  - destruct (Ascii.eqb_spec c sep) as [-> | Hc].
    + constructor; [intros [] | exact IH].
    + destruct (split sep s) as [| x xs]; inversion IH; subst;
        constructor; auto; simpl; intros [H | H]; auto.
Qed.

(** X3.  The envelope keeps the topic whole: under [topic] it holds the
    list of the segments between the slashes, at least one, none of which
    contains a slash, and joined by slashes they give the topic back. *)
Theorem envelope_topic_round_trip (message : Message.t) (payload : pyval) :
  let segments := split "/" (Message.topic message) in
  (exists items,
      envelope message payload = PDict items
      /\ dict_get "topic" items = Some (PList (map PStr segments)))
  /\ join "/" segments = Message.topic message
  /\ segments <> []
  /\ Forall (fun seg => ~ In "/"%char (list_ascii_of_string seg)) segments.
Proof.
  intros segments. split; [eexists; split; reflexivity |].
  split; [apply join_split |].
  split; [apply split_not_nil | apply split_segments_clean].
Qed.

(** ** The connection callback *)

Lemma subscriptions_app a b :
  subscriptions (a ++ b) = subscriptions a ++ subscriptions b.
Proof. unfold subscriptions. apply flat_map_app. Qed.

Lemma logged_at_app lvl a b :
  logged_at lvl (a ++ b) = logged_at lvl a ++ logged_at lvl b.
Proof. unfold logged_at. apply flat_map_app. Qed.

Section Subscribing.
Context {L : Library}.

(** The effects of the loop of lines 68-70. *)
Let subscribing (points : list Point.t) : list effect :=
  flat_map
    (fun point =>
       [Logged (Log INFO "subscribe %s" [AStr (Point.topic point)]);
        Subscribed (Point.topic point)])
    points.

Lemma subscribing_subscriptions points :
  subscriptions (subscribing points) = map Point.topic points.
Proof.
  induction points as [| point rest IH]; [reflexivity |].
  simpl. now rewrite <- IH.
Qed.

Lemma subscribing_no_error points : logged_at ERROR (subscribing points) = [].
Proof.
  induction points as [| point rest IH]; [reflexivity |].
  simpl. exact IH.
Qed.

(** X4.  When the broker accepts the connection the callback subscribes
    to the topic of every rule, in the order of the rules and as often as
    a topic is configured, and logs no error; with any other code it
    subscribes to nothing and logs one error, with the reason of the
    table or [unknown code]. *)
Theorem connect_subscribes_iff_accepted codes points rc :
  let effects := _on_mqtt_connect codes points rc in
  subscriptions effects
  = (if Z.eqb rc (Connack.ACCEPTED codes) then map Point.topic points
     else [])
  /\ logged_at ERROR effects
     = (if Z.eqb rc (Connack.ACCEPTED codes) then []
        else [Log ERROR "Connection refused from reason: %s"
                  [AStr (lut_get codes rc "unknown code")]])
  /\ (In (lut_get codes rc "unknown code")
         ("unknown code" :: map snd (lut codes))).
Proof.
  intros effects. subst effects. unfold _on_mqtt_connect.
  rewrite !subscriptions_app, !logged_at_app.
  fold (subscribing points).
  destruct (Z.eqb rc (Connack.ACCEPTED codes)); simpl negb; cbv iota.
  - rewrite subscribing_subscriptions, subscribing_no_error.
    repeat split; try reflexivity.
    unfold lut_get.
    destruct (List.find _ _) as [[code reason] |] eqn:E; [| now left].
    apply find_some in E as [Hin _]. apply in_rev in Hin.
    right. apply (in_map snd) in Hin. exact Hin.
  - repeat split; try reflexivity.
    unfold lut_get.
    destruct (List.find _ _) as [[code reason] |] eqn:E; [| now left].
    apply find_some in E as [Hin _]. apply in_rev in Hin.
    right. apply (in_map snd) in Hin. exact Hin.
Qed.
End Subscribing.

(** X5.  With five refusal codes that differ, the reason logged for each
    of them is its own text; for a code outside the table it is the
    default. *)
Theorem refusal_reason (codes : Connack.t) (rc : Z) (default : string)
    (Hdistinct : NoDup (map fst (lut codes))) :
  (forall code reason,
      In (code, reason) (lut codes) -> lut_get codes code default = reason)
  /\ (~ In rc (map fst (lut codes)) -> lut_get codes rc default = default).
Proof.
  assert (Hfind : forall (l : list (Z * string)) code reason,
             NoDup (map fst l) -> In (code, reason) l ->
             List.find (fun kv => Z.eqb (fst kv) code) l
             = Some (code, reason)).
  { induction l as [| [k v] l IH]; intros code reason Hnd Hin;
      [destruct Hin |].
    simpl in Hnd. inversion Hnd as [| ? ? Hk Hnd']; subst.
    simpl. destruct (Z.eqb_spec k code) as [-> | Hne].
    - destruct Hin as [Heq | Hin]; [congruence |].
      exfalso. apply Hk. apply (in_map fst) in Hin. exact Hin.
    - destruct Hin as [Heq | Hin]; [congruence |]. now apply IH. }
  split.
  - intros code reason Hin. unfold lut_get.
    rewrite (Hfind (rev (lut codes)) code reason).
    + reflexivity.
    + rewrite map_rev. now apply NoDup_rev.
    + now apply in_rev in Hin.
  - intros Hout. unfold lut_get.
    destruct (List.find _ _) as [[code reason] |] eqn:E; [| reflexivity].
    apply find_some in E as [Hin Heq]. simpl in Heq.
    apply Z.eqb_eq in Heq. subst code.
    exfalso. apply Hout. apply in_rev in Hin.
    apply (in_map fst) in Hin. exact Hin.
Qed.

(** The codes of MQTT 3.1.1, 0 to 5, and a code 6 that the table lacks. *)
Lemma refusal_reason_witness :
  let codes := Connack.Build 0 1 2 3 4 5 in
  (forall code reason,
      In (code, reason) (lut codes) ->
      lut_get codes code "unknown code" = reason)
  /\ (~ In 6%Z (map fst (lut codes)) ->
      lut_get codes 6 "unknown code" = "unknown code").
Proof.
  apply (refusal_reason (Connack.Build 0 1 2 3 4 5) 6 "unknown code").
  simpl. repeat constructor; simpl; intuition discriminate.
Defined.

(** ** The records a rule can write *)

Lemma dict_keys_set_old {V : Type} k (v : V) d :
  In k (dict_keys d) -> dict_keys (dict_set k v d) = dict_keys d.
Proof.
  induction d as [| [k' v'] d IH]; simpl; intros H; [destruct H |].
  destruct (String.eqb_spec k k') as [-> | Hk]; [reflexivity |].
  simpl. f_equal. apply IH. destruct H as [H | H]; [congruence | exact H].
Qed.

Lemma no_none_set k v d :
  is_none v = false -> no_none d -> no_none (dict_set k v d).
Proof.
  intros Hv. unfold no_none.
  induction d as [| [k' v'] d IH]; simpl; intros H.
  - constructor; [exact Hv | constructor].
  - inversion H as [| ? ? Hhead Htail]; subst.
    destruct (String.eqb k k'); constructor; simpl; auto.
Qed.

Lemma NoDup_snoc {A : Type} (l : list A) (a : A) :
  NoDup l -> ~ In a l -> NoDup (l ++ [a]).
Proof.
  induction l as [| x l IH]; simpl; intros Hnd Hout.
  - constructor; [intros [] | constructor].
  - inversion Hnd as [| ? ? Hx Hl]; subst. constructor.
    + rewrite in_app_iff. intros [H | [H | []]]; [auto |].
      apply Hout. now left.
    + apply IH; [exact Hl |]. intros H. apply Hout. now right.
Qed.

(** What [d[k] = v] keeps: no [None], unique keys, keys inside [K]. *)
Lemma dict_set_keeps (K : list string) k v d :
  is_none v = false -> In k K ->
  no_none d /\ NoDup (dict_keys d) /\ incl (dict_keys d) K ->
  no_none (dict_set k v d) /\ NoDup (dict_keys (dict_set k v d))
  /\ incl (dict_keys (dict_set k v d)) K.
Proof.
  intros Hv Hk (Hn & Hd & Hi).
  split; [now apply no_none_set |].
  destruct (in_dec string_dec k (dict_keys d)) as [Hin | Hout].
  - rewrite (dict_keys_set_old k v d Hin). auto.
  - rewrite (dict_set_fresh k v d Hout).
    unfold dict_keys. rewrite map_app. simpl. split.
    + now apply NoDup_snoc.
    + apply incl_app; [exact Hi |]. intros x [<- | []]. exact Hk.
Qed.

Section Written.
Context {L : Library}.

Lemma extract_keeps msg (K : list string) specs :
  incl (dict_keys specs) K ->
  forall acc w fs w',
    extract specs msg acc w = (Normal fs, w') ->
    no_none acc /\ NoDup (dict_keys acc) /\ incl (dict_keys acc) K ->
    no_none fs /\ NoDup (dict_keys fs) /\ incl (dict_keys fs) K.
Proof.
  induction specs as [| [key text] rest IH]; intros HK acc w fs w' H Hacc.
  - simpl in H. unfold ret in H. injection H as <- _. exact Hacc.
  - assert (HK' : incl (dict_keys rest) K)
      by (intros x Hx; apply HK; now right).
    rewrite extract_cons in H. unfold bind in H.
    destruct (compile text w) as [[path | | e] w1]; try discriminate.
    destruct (is_none (_get_value_from_str_or_JSONPath (Compiled path) msg))
      eqn:Hv.
    + exact (IH HK' _ _ _ _ H Hacc).
    + apply (IH HK' _ _ _ _ H).
      apply dict_set_keeps; auto. apply HK. now left.
Qed.

Lemma extract_if_present_keeps msg d w fs w' :
  extract_if_present d msg w = (Normal fs, w') ->
  no_none fs /\ NoDup (dict_keys fs) /\ incl (dict_keys fs) (keys_of d).
Proof.
  destruct d as [specs |]; simpl; intros H.
  - apply (extract_keeps msg (dict_keys specs) specs (incl_refl _) [] w fs w' H).
    repeat split; [constructor | constructor | intros x []].
  - unfold ret in H. injection H as <- _.
    repeat split; [constructor | constructor | intros x []].
Qed.
End Written.

Section Cases.
Context {L : Library}.

Lemma cached_or_built_sink message (msg : option pyval) w :
  w_sink (snd (match msg with
               | None => build_msg message
               | Some m0 => ret m0
               end w)) = w_sink w.
Proof.
  destruct msg; [reflexivity |].
  unfold build_msg, bind, lift.
  destruct (decode_utf8 _); simpl; [reflexivity |].
  destruct (json_loads _); reflexivity.
Qed.

(** From line 123 on: the record is written with tags that are sound,
    or nothing is written and the block does not fall through. *)
Lemma after_fields_cases point env meas time fields w :
  let r := after_fields point env meas time fields w in
  (exists tags,
      fst r = Normal (Some env)
      /\ w_sink (snd r)
         = w_sink w
           ++ [Write_points (Rec.Build meas time tags fields)
                            (Point.database point)]
      /\ no_none tags /\ NoDup (dict_keys tags)
      /\ incl (dict_keys tags) (keys_of (Point.tags point)))
  \/ ((forall a, fst r <> Normal a) /\ w_sink (snd r) = w_sink w).
Proof.
  intros r.
  assert (Hr : r = after_fields point env meas time fields w) by reflexivity.
  clearbody r. unfold after_fields in Hr. unfold bind at 1 in Hr.
  destruct (extract_if_present_quiet (Point.tags point) env w)
    as (_ & Hs & _ & _).
  destruct (extract_if_present (Point.tags point) env w)
    as [[tags | | e] w1] eqn:E; simpl in Hs.
  - pose proof (extract_if_present_keeps _ _ _ _ _ E) as Hkeep.
    destruct (Point.tags point) as [ts |].
    + left. exists tags.
      unfold len_of, bind, ret, when, logging, write_points in Hr.
      destruct (length tags =? length ts)%nat; simpl in Hr; subst r; simpl;
        rewrite Hs; auto.
    + right. subst r. split; [intros a; discriminate | exact Hs].
  - right. subst r. split; [intros a; discriminate | exact Hs].
  - right. subst r. split; [intros a; discriminate | exact Hs].
Qed.

(** The body of the loop for a rule that matches, in its stages. *)
Lemma loop_body_stages message point msg w :
  topic_matches_sub (Point.topic point) (Message.topic message) = true ->
  loop_body message point msg w
  = (env <- match msg with
            | None => build_msg message
            | Some m0 => ret m0
            end ;;
     let measurement :=
       _get_value_from_str_or_JSONPath (Point.measurement point) env in
     if is_none measurement then
       logging WARNING "unknown measurement" [] ;; py_return
     else
       time <- now ;;
       fields <- extract_if_present (Point.fields point) env ;;
       if dict_is_empty fields then
         logging WARNING "empty fields" [] ;; py_return
       else
         nfields <- len_of "fields" (Point.fields point) ;;
         when (negb (length fields =? nfields)%nat)
              (logging WARNING "different number of fields" []) ;;
         after_fields point env measurement time fields)%py w.
Proof. intros H. unfold loop_body. rewrite H. reflexivity. Qed.

(** A rule that matches writes its one record and hands the envelope on,
    or writes nothing and ends the handler. *)
Lemma loop_body_cases message point msg w :
  topic_matches_sub (Point.topic point) (Message.topic message) = true ->
  let r := loop_body message point msg w in
  (exists env c,
      fst r = Normal (Some env)
      /\ w_sink (snd r) = w_sink w ++ [c]
      /\ written_for point c)
  \/ ((forall a, fst r <> Normal a) /\ w_sink (snd r) = w_sink w).
Proof.
  intros Hmatch r.
  assert (Hr : r = loop_body message point msg w) by reflexivity.
  clearbody r. rewrite (loop_body_stages _ _ _ _ Hmatch) in Hr.
  unfold bind at 1 in Hr.
  pose proof (cached_or_built_sink message msg w) as Hs0.
  destruct (match msg with
            | None => build_msg message
            | Some m0 => ret m0
            end w) as [[env | | e] w0]; simpl in Hs0;
    [| right; subst r; split; [intros a; discriminate | exact Hs0] ..].
  cbv zeta in Hr.
  destruct (is_none (_get_value_from_str_or_JSONPath
                       (Point.measurement point) env)) eqn:Hmeas.
  { right. subst r. split; [intros a; discriminate | exact Hs0]. }
  unfold bind at 1 in Hr. unfold now at 1 in Hr.
  set (w1 := World (w_log w0) (w_sink w0) (w_compiled w0) (S (w_clock w0))
                   (w_calls w0)) in Hr.
  unfold bind at 1 in Hr.
  destruct (extract_if_present_quiet (Point.fields point) env w1)
    as (_ & Hs2 & _ & _).
  destruct (extract_if_present (Point.fields point) env w1)
    as [[fields | | e] w2] eqn:E; simpl in Hs2;
    [| right; subst r; split; [intros a; discriminate | simpl; congruence] ..].
  pose proof (extract_if_present_keeps _ _ _ _ _ E) as (Hn & Hd & Hi).
  destruct (dict_is_empty fields) eqn:Hempty.
  { right. subst r. split; [intros a; discriminate | simpl; congruence]. }
  assert (Hne : fields <> []) by (intros ->; discriminate).
  unfold bind at 1 in Hr.
  destruct (Point.fields point) as [fs |] eqn:Efs.
  2:{ simpl in E. unfold ret in E. injection E as <- _. discriminate. }
  cbn [len_of] in Hr. unfold ret at 1 in Hr.
  unfold bind at 1 in Hr.
  assert (Hw : exists w4,
             when (negb (length fields =? length fs)%nat)
                  (logging WARNING "different number of fields" []) w2
             = (Normal tt, w4) /\ w_sink w4 = w_sink w2).
  { destruct (negb _); simpl; eexists; split; reflexivity. }
  destruct Hw as (w4 & Hw & Hs4). rewrite Hw in Hr.
  destruct (after_fields_cases point env
              (_get_value_from_str_or_JSONPath (Point.measurement point) env)
              (utcnow (w_clock w0)) fields w4)
    as [(tags & Hf & Hs & Ht1 & Ht2 & Ht3) | [Hf Hs]];
    rewrite <- Hr in *.
  - left. eexists env, _. split; [exact Hf |].
    split; [rewrite Hs; f_equal; simpl in Hs2; congruence |].
    unfold written_for. cbn [into written Rec.measurement Rec.fields Rec.tags].
    split; [reflexivity |]. split; [exact Hmeas |].
    split; [intros s Hlit; rewrite Hlit; reflexivity |].
    split; [exact Hne |]. split; [exact Hn |]. split; [exact Ht1 |].
    split; [exact Hd |]. split; [exact Ht2 |].
    split; [rewrite Efs; exact Hi | exact Ht3].
  - right. split; [exact Hf | simpl in Hs2; congruence].
Qed.
End Cases.

(** The records written by the loop are those of the first matching
    rules, one each and in order; the loop falls through only when every
    matching rule has written. *)
Lemma for_points_writes {L : Library} message points : forall msg w,
  let r := for_points message points msg w in
  let rules := matching points (Message.topic message) in
  exists new,
    w_sink (snd r) = w_sink w ++ new
    /\ Forall2 written_for (firstn (length new) rules) new
    /\ length new <= length rules
    /\ (fst r = Normal tt -> length new = length rules).
Proof.
  induction points as [| point rest IH]; intros msg w r rules.
  - exists []. subst r rules. simpl. rewrite app_nil_r. auto.
  - subst r rules. simpl matching. simpl for_points.
    destruct (topic_matches_sub (Point.topic point) (Message.topic message))
      eqn:Hmatch.
    + destruct (loop_body_cases message point msg w Hmatch)
        as [(env & c & Hf & Hs & Hc) | [Hf Hs]].
      * unfold bind.
        destruct (loop_body message point msg w) as [[a | | e] w']; simpl in Hf;
          try discriminate.
        injection Hf as ->. simpl in Hs.
        destruct (IH (Some env) w') as (new & Hs' & Hall & Hle & Hnormal).
        exists (c :: new). rewrite Hs', Hs, <- app_assoc. simpl.
        split; [reflexivity |]. split; [now constructor |].
        split; [lia |]. intros Hn. f_equal. now apply Hnormal.
      * exists []. unfold bind.
        destruct (loop_body message point msg w) as [[a | | e] w'];
          simpl in Hf, Hs.
        -- exfalso. now apply (Hf a).
        -- simpl. rewrite app_nil_r. repeat split; auto; try lia.
           discriminate.
        -- simpl. rewrite app_nil_r. repeat split; auto; try lia.
           discriminate.
    + unfold loop_body. rewrite Hmatch. unfold bind at 1. simpl.
      apply IH.
Qed.

(** X6.  The records the handler writes follow the matching rules: the
    k records written are those of the first k rules that match the
    topic, one for each and in the order of the rules; each goes to the
    database of its rule, has its field and tag keys among the keys the
    rule configures, and has the measurement of the rule as it is written
    when that is a string; and the handler falls through only when every
    matching rule has written its record. *)
Theorem records_follow_matching_rules {L : Library} points message w :
  let r := _on_mqtt_message points message w in
  let rules := matching points (Message.topic message) in
  exists new,
    w_sink (snd r) = w_sink w ++ new
    /\ length new <= length rules
    /\ (fst r = Normal tt -> length new = length rules)
    /\ Forall2
         (fun point c =>
            into c = Point.database point
            /\ (forall s, Point.measurement point = Obj (PStr s) ->
                          Rec.measurement (written c) = PStr s)
            /\ incl (dict_keys (Rec.fields (written c)))
                    (keys_of (Point.fields point))
            /\ incl (dict_keys (Rec.tags (written c)))
                    (keys_of (Point.tags point)))
         (firstn (length new) rules) new.
Proof.
  intros r rules. subst r. rewrite on_mqtt_message_loop.
  destruct (for_points_writes message points None
              (snd (logging DEBUG "mqtt_on_message %s %s"
                            [AStr (Message.topic message);
                             ABytes (Message.payload message)] w)))
    as (new & Hs & Hall & Hle & Hn).
  exists new. split; [exact Hs |]. split; [exact Hle |].
  split; [exact Hn |].
  fold rules in Hall. clear - Hall.
  induction Hall as [| point c ps cs Hc _ IH]; constructor; [| exact IH].
  unfold written_for in Hc. tauto.
Qed.

(** X7.  What no written record has: a measurement that is [None], a
    field or a tag whose value is [None], or a key twice among its fields
    or among its tags. *)
Theorem records_hold_no_none {L : Library} points message w :
  exists new,
    w_sink (snd (_on_mqtt_message points message w)) = w_sink w ++ new
    /\ Forall
         (fun c =>
            is_none (Rec.measurement (written c)) = false
            /\ no_none (Rec.fields (written c))
            /\ no_none (Rec.tags (written c))
            /\ NoDup (dict_keys (Rec.fields (written c)))
            /\ NoDup (dict_keys (Rec.tags (written c))))
         new.
Proof.
  rewrite on_mqtt_message_loop.
  destruct (for_points_writes message points None
              (snd (logging DEBUG "mqtt_on_message %s %s"
                            [AStr (Message.topic message);
                             ABytes (Message.payload message)] w)))
    as (new & Hs & Hall & _ & _).
  exists new. split; [exact Hs |].
  clear - Hall.
  induction Hall as [| point c ps cs Hc _ IH]; constructor; [| exact IH].
  unfold written_for in Hc. tauto.
Qed.

(** ** How the handler can raise, the libraries returning *)

Section Raising.
Context {L : Library}.

Lemma compile_raised text w e w' :
  compile text w = (Raised e, w') -> jsonpath_parse text = inl e.
Proof.
  unfold compile, lift. destruct (jsonpath_parse text) as [e0 | path].
  - unfold raise. congruence.
  - unfold ret. discriminate.
Qed.

Lemma extract_raised msg specs : forall acc w e w',
  extract specs msg acc w = (Raised e, w') ->
  exists text, In text (map snd specs) /\ jsonpath_parse text = inl e.
Proof.
  induction specs as [| [key text] rest IH]; intros acc w e w' H.
  - discriminate.
  - rewrite extract_cons in H. unfold bind in H.
    destruct (compile text w) as [[path | | e0] w1] eqn:E.
    + destruct (is_none _);
        destruct (IH _ _ _ _ H) as (t & Hin & Ht);
        exists t; split; [now right | exact Ht | now right | exact Ht].
    + discriminate.
    + injection H as <- _. exists text. split; [now left |].
      exact (compile_raised _ _ _ _ E).
Qed.

Lemma extract_if_present_raised msg d w e w' :
  extract_if_present d msg w = (Raised e, w') ->
  exists text, In text (exprs_of d) /\ jsonpath_parse text = inl e.
Proof.
  destruct d as [specs |]; simpl; [apply extract_raised | discriminate].
Qed.

Lemma cached_or_built_raised message (msg : option pyval) w e w' :
  match msg with None => build_msg message | Some m0 => ret m0 end w
    = (Raised e, w') ->
  decode_utf8 (Message.payload message) = inl e.
Proof.
  destruct msg; [discriminate |].
  unfold build_msg, bind, lift.
  destruct (decode_utf8 _) as [e0 | text]; simpl; [congruence |].
  destruct (json_loads _); discriminate.
Qed.

Lemma after_fields_raised point env meas time fields w e w' :
  after_fields point env meas time fields w = (Raised e, w') ->
  (exists text,
      In text (exprs_of (Point.tags point)) /\ jsonpath_parse text = inl e)
  \/ (e = KeyError "tags" /\ Point.tags point = None).
Proof.
  unfold after_fields. unfold bind at 1.
  destruct (extract_if_present (Point.tags point) env w)
    as [[tags | | e0] w1] eqn:E; intros H.
  - destruct (Point.tags point) as [ts |].
    + exfalso. unfold len_of, bind, ret, when, logging, write_points in H.
      destruct (negb _); discriminate.
    + right. simpl in H. unfold bind, raise in H. injection H as <- _. auto.
  - discriminate.
  - injection H as <- _. left. exact (extract_if_present_raised _ _ _ _ _ E).
Qed.

(** The three ways the body of the loop raises. *)
Lemma loop_body_raised message point msg w e w' :
  loop_body message point msg w = (Raised e, w') ->
  topic_matches_sub (Point.topic point) (Message.topic message) = true
  /\ (decode_utf8 (Message.payload message) = inl e
      \/ (exists text,
             In text (exprs_of (Point.fields point)
                      ++ exprs_of (Point.tags point))
             /\ jsonpath_parse text = inl e)
      \/ (e = KeyError "tags" /\ Point.tags point = None)).
Proof.
  intros H.
  destruct (topic_matches_sub (Point.topic point) (Message.topic message))
    eqn:Hmatch.
  2:{ unfold loop_body in H. rewrite Hmatch in H. discriminate. }
  split; [reflexivity |].
  rewrite (loop_body_stages _ _ _ _ Hmatch) in H. unfold bind at 1 in H.
  destruct (match msg with
            | None => build_msg message
            | Some m0 => ret m0
            end w) as [[env | | e0] w0] eqn:E0.
  2:{ discriminate. }
  2:{ injection H as <- _. left.
      exact (cached_or_built_raised _ _ _ _ _ E0). }
  cbv zeta in H.
  destruct (is_none _); [discriminate |].
  unfold bind at 1 in H. unfold now at 1 in H.
  unfold bind at 1 in H.
  destruct (extract_if_present (Point.fields point) env _)
    as [[fields | | e1] w2] eqn:E1.
  2:{ discriminate. }
  2:{ injection H as <- _. right. left.
      destruct (extract_if_present_raised _ _ _ _ _ E1) as (t & Hin & Ht).
      exists t. split; [apply in_or_app; now left | exact Ht]. }
  destruct (dict_is_empty fields) eqn:Hempty; [discriminate |].
  destruct (Point.fields point) as [fs |] eqn:Efs.
  2:{ simpl in E1. unfold ret in E1. injection E1 as <- _. discriminate. }
  unfold bind at 1 in H. cbn [len_of] in H. unfold ret at 1 in H.
  unfold bind at 1 in H.
  destruct (when (negb (length fields =? length fs)%nat)
                 (logging WARNING "different number of fields" []) w2)
    as [[[] | | e2] w3] eqn:E2;
    [| destruct (negb _); discriminate ..].
  destruct (after_fields_raised _ _ _ _ _ _ _ _ H)
    as [(t & Hin & Ht) | [He Ht]].
  - right. left. exists t. split; [apply in_or_app; now right | exact Ht].
  - right. right. auto.
Qed.

Lemma may_raise_cons point rest message e :
  may_raise rest message e -> may_raise (point :: rest) message e.
Proof.
  unfold may_raise. simpl matching. simpl some_rule_matches.
  intros [[Hm Hd] | [(p & t & Hin & Ht & Hp) | [He (p & Hin & Ht)]]].
  - left. split; [| exact Hd]. rewrite Hm. apply orb_true_r.
  - right. left. exists p, t. split; [| auto].
    destruct (topic_matches_sub _ _); [now right | exact Hin].
  - right. right. split; [exact He |]. exists p. split; [| exact Ht].
    destruct (topic_matches_sub _ _); [now right | exact Hin].
Qed.

Lemma for_points_raised message points : forall msg w e w',
  for_points message points msg w = (Raised e, w') ->
  may_raise points message e.
Proof.
  induction points as [| point rest IH]; intros msg w e w' H;
    [discriminate |].
  simpl in H. unfold bind in H.
  destruct (loop_body message point msg w) as [[a | | e0] w1] eqn:E.
  - apply may_raise_cons. exact (IH _ _ _ _ H).
  - discriminate.
  - injection H as <- _.
    destruct (loop_body_raised _ _ _ _ _ _ E) as [Hmatch Hcases].
    unfold may_raise. simpl matching. simpl some_rule_matches. rewrite Hmatch.
    destruct Hcases as [Hd | [(t & Hin & Ht) | [He Ht]]].
    + left. auto.
    + right. left. exists point, t. split; [now left | auto].
    + right. right. split; [exact He |]. exists point.
      split; [now left | exact Ht].
Qed.
End Raising.

(** ** Startup and the databases the handler writes to *)

Lemma in_firstn {A : Type} (n : nat) (l : list A) (a : A) :
  In a (firstn n l) -> In a l.
Proof.
  revert l. induction n as [| n IH]; intros [| x l]; simpl; intros H;
    try contradiction.
  destruct H as [H | H]; [now left | right; now apply IH].
Qed.

Lemma Forall2_right {A B : Type} (R : A -> B -> Prop) (Q : B -> Prop) l l' :
  Forall2 R l l' -> (forall a b, In a l -> R a b -> Q b) -> Forall Q l'.
Proof.
  induction 1 as [| a b l l' Hab _ IH]; intros H; constructor.
  - apply (H a b); [now left | exact Hab].
  - apply IH. intros a' b' Hin. apply H. now right.
Qed.

Section StartupCalls.
Context {L : Library}.

(** A block that calls no client. *)
Let calls_kept {A : Type} (m : M A) : Prop :=
  forall w, w_calls (snd (m w)) = w_calls w.

Lemma calls_kept_bind {A B : Type} (m : M A) (k : A -> M B) :
  calls_kept m -> (forall a, calls_kept (k a)) -> calls_kept (bind m k).
Proof.
  intros Hm Hk w. unfold bind. specialize (Hm w).
  destruct (m w) as [[a | | e] w']; simpl in *; [| auto ..].
  rewrite (Hk a w'). exact Hm.
Qed.

Lemma calls_kept_loop_body message point msg :
  calls_kept (loop_body message point msg).
Proof.
  unfold loop_body.
  destruct (topic_matches_sub _ _); [| intros w; reflexivity].
  apply calls_kept_bind.
  { intros w. destruct msg; [reflexivity |].
    unfold build_msg, bind, lift.
    destruct (decode_utf8 _); simpl; [reflexivity |].
    destruct (json_loads _); reflexivity. }
  intros env. destruct (is_none _); [intros w; reflexivity |].
  apply calls_kept_bind; [intros w; reflexivity |]. intros time.
  apply calls_kept_bind;
    [intros w; apply (extract_if_present_quiet (Point.fields point) env w) |].
  intros fields. destruct (dict_is_empty fields); [intros w; reflexivity |].
  apply calls_kept_bind;
    [intros w; destruct (Point.fields point); reflexivity |].
  intros nfields.
  apply calls_kept_bind; [intros w; destruct (negb _); reflexivity |].
  intros _.
  apply calls_kept_bind;
    [intros w; apply (extract_if_present_quiet (Point.tags point) env w) |].
  intros tags.
  apply calls_kept_bind;
    [intros w; destruct (Point.tags point); reflexivity |].
  intros ntags.
  apply calls_kept_bind; [intros w; destruct (negb _); reflexivity |].
  intros _. intros w. reflexivity.
Qed.

Lemma calls_kept_for_points message points :
  forall msg, calls_kept (for_points message points msg).
Proof.
  induction points as [| point rest IH]; intros msg; simpl.
  - intros w. reflexivity.
  - apply calls_kept_bind; [apply calls_kept_loop_body | apply IH].
Qed.

Lemma create_databases_calls points w :
  create_databases points w
  = (Normal tt,
     World (w_log w) (w_sink w) (w_compiled w) (w_clock w)
           (w_calls w ++ rule_databases points)).
Proof.
  revert w. induction points as [| point rest IH]; intros w; simpl.
  - unfold ret. rewrite app_nil_r. destruct w; reflexivity.
  - unfold bind at 1.
    destruct (Point.database point) as [name |]; simpl; rewrite IH; simpl.
    + rewrite <- app_assoc. reflexivity.
    + reflexivity.
Qed.

(** The calls of [__init__], in order. *)
Lemma init_calls config w :
  let i := Config.influx config in
  let m := Config.broker config in
  w_calls (snd (__init__ config w))
  = w_calls w
    ++ [InfluxDBClient (Config.host i) (Config.port i)
          (get_default (Config.username i) "root")
          (get_default (Config.password i) "root")
          (get_default (Config.ssl i) false);
        Create_database (Config.database i);
        Switch_database (Config.database i)]
    ++ rule_databases (Config.points config)
    ++ [Mqtt_Client]
    ++ match truthy (Config.mqtt_username m) with
       | Some user => [Username_pw_set user (Config.mqtt_password m)]
       | None => []
       end
    ++ match truthy (Config.cafile m) with
       | Some ca => [Tls_set ca (Config.certfile m) (Config.keyfile m)]
       | None => []
       end
    ++ [Connect_async (Config.mqtt_host m) (Config.mqtt_port m) 10;
        Loop_forever].
Proof.
  intros i m. unfold __init__. fold i m.
  unfold bind at 1. cbn [call fst snd].
  unfold bind at 1. cbn [call fst snd].
  unfold bind at 1. cbn [call fst snd].
  unfold bind at 1. rewrite create_databases_calls.
  cbn [w_log w_sink w_compiled w_clock w_calls].
  unfold bind, call, logging, ret.
  destruct (truthy (Config.mqtt_username m));
    destruct (truthy (Config.cafile m)); simpl;
    repeat rewrite <- app_assoc; reflexivity.
Qed.
End StartupCalls.

(** X10.  Every database the handler can write to was created at
    startup: [__init__] creates and selects the default database and
    creates the database of every rule that names one, and a record
    written while a message is handled goes to the database of its rule,
    or to the default one; the handler itself calls nothing on the
    clients but [write_points]. *)
Theorem databases_created_at_startup {L : Library} config message w0 :
  let started := snd (__init__ config w0) in
  let default := Config.database (Config.influx config) in
  let r := _on_mqtt_message (Config.points config) message started in
  In (Create_database default) (w_calls started)
  /\ In (Switch_database default) (w_calls started)
  /\ w_calls (snd r) = w_calls started
  /\ exists new,
      w_sink (snd r) = w_sink started ++ new
      /\ Forall (fun c => In (Create_database (get_default (into c) default))
                             (w_calls started))
                new.
Proof.
  intros started default r.
  assert (Hcalls := init_calls config w0). cbv zeta in Hcalls.
  fold started default in Hcalls.
  assert (Hd : In (Create_database default) (w_calls started)).
  { rewrite Hcalls. apply in_or_app. right. simpl. auto. }
  split; [exact Hd |]. split.
  { rewrite Hcalls. apply in_or_app. right. simpl. auto. }
  split.
  { subst r. rewrite on_mqtt_message_loop.
    rewrite (calls_kept_for_points message (Config.points config) None).
    reflexivity. }
  destruct (records_follow_matching_rules (Config.points config) message
              started) as (new & Hs & _ & _ & Hall).
  exists new. split; [exact Hs |].
  apply (Forall2_right _ _ _ _ Hall).
  intros point c Hin (Hinto & _).
  apply in_firstn in Hin. apply filter_In in Hin as [Hin _].
  rewrite Hinto. destruct (Point.database point) as [name |] eqn:Hdb;
    simpl; [| exact Hd].
  rewrite Hcalls. apply in_or_app. right.
  apply in_or_app. right. apply in_or_app. left.
  unfold rule_databases. apply in_flat_map. exists point.
  split; [exact Hin |]. rewrite Hdb. now left.
Qed.

(** ** A measurement that is not resolved *)

(** X11.  When the measurement of the first rule that matches resolves
    to [None] (a value of the configuration that is not a string, or a
    path without a match), the handler logs the warning of line 101 and
    returns: nothing is written or compiled, the clock is not read, and
    the rules after it are not reached. *)
Theorem unresolved_measurement_returns {L : Library}
    (pre post : list Point.t) (point : Point.t) (message : Message.t)
    (text : string) (v : pyval) (w : world)
    (Hpre : some_rule_matches pre (Message.topic message) = false)
    (Hmatch : topic_matches_sub (Point.topic point) (Message.topic message)
              = true)
    (Hdecode : decode_utf8 (Message.payload message) = inr text)
    (Hloads : json_loads (if String.eqb text EmptyString then "null" else text)
              = inr v)
    (Hmeas : is_none (_get_value_from_str_or_JSONPath
                        (Point.measurement point) (envelope message v))
             = true) :
  _on_mqtt_message (pre ++ point :: post) message w
  = (Returned,
     World (w_log w
            ++ [Log DEBUG "mqtt_on_message %s %s"
                    [AStr (Message.topic message);
                     ABytes (Message.payload message)];
                Log WARNING "unknown measurement" []])
           (w_sink w) (w_compiled w) (w_clock w) (w_calls w)).
Proof.
  rewrite on_mqtt_message_loop.
  rewrite (for_points_skip message pre (point :: post) None _ Hpre).
  apply returned_ends_loop.
  rewrite (loop_body_stages _ _ _ _ Hmatch).
  assert (Hbuild : forall w1, build_msg message w1
                              = (Normal (envelope message v), w1)).
  { intros w1. unfold build_msg, bind. rewrite Hdecode. simpl.
    rewrite Hloads. reflexivity. }
  rewrite (bind_normal _ _ _ _ _ (Hbuild _)). cbv zeta. rewrite Hmeas.
  unfold bind, logging, py_return. simpl.
  rewrite <- app_assoc. reflexivity.
Qed.

(** A rule whose measurement is the number 5, on a reading. *)
Lemma unresolved_measurement_returns_witness :
  @_on_mqtt_message model
     ([] ++ @Point.Build model "sensors/+/temp" (@Obj model (PInt 5))
                         (Some [("value", "$.payload.value")]) (Some []) None
         :: [Scenario.temperature])
     Scenario.reading world0
  = (Returned,
     World ([] ++ [Log DEBUG "mqtt_on_message %s %s"
                       [AStr "sensors/kitchen/temp";
                        ABytes ("{" ++ quoted "value" ++ ": 21.5}")%string];
                   Log WARNING "unknown measurement" []])
           [] [] 0 []).
Proof.
  apply (@unresolved_measurement_returns model []
           [Scenario.temperature]
           (@Point.Build model "sensors/+/temp" (@Obj model (PInt 5))
                         (Some [("value", "$.payload.value")]) (Some []) None)
           Scenario.reading ("{" ++ quoted "value" ++ ": 21.5}")%string
           (PDict [("value", PFloat "21.5")]) world0);
    reflexivity.
Defined.

(** ** Handling the same message again *)

Lemma same_end_refl {A : Type} (f : flow A) : same_end eq f f.
Proof. destruct f; simpl; auto. Qed.

Lemma same_end_eq {A : Type} (f1 f2 : flow A) : same_end eq f1 f2 -> f1 = f2.
Proof. destruct f1, f2; simpl; intros H; try contradiction; congruence. Qed.

Lemma alike_of_worldless {A : Type} (m : M A) : worldless m -> alike eq m m.
Proof.
  intros [Hf Hs] w1 w2. exists [], []. rewrite !Hs, !app_nil_r.
  repeat split. rewrite (Hf w1 w2). apply same_end_refl.
Qed.

Lemma alike_bind {A B : Type} (R : A -> A -> Prop) (S : B -> B -> Prop)
      (m1 m2 : M A) (k1 k2 : A -> M B) :
  alike R m1 m2 -> (forall a b, R a b -> alike S (k1 a) (k2 b)) ->
  alike S (bind m1 k1) (bind m2 k2).
Proof.
  intros Hm Hk w1 w2. unfold bind.
  destruct (Hm w1 w2) as (n1 & n2 & E1 & E2 & En & He).
  destruct (m1 w1) as [[a | | e1] w1'], (m2 w2) as [[b | | e2] w2'];
    simpl in *; try contradiction.
  - destruct (Hk a b He w1' w2') as (p1 & p2 & F1 & F2 & Fn & Fe).
    exists (n1 ++ p1), (n2 ++ p2).
    rewrite F1, F2, E1, E2, !app_assoc, !map_app, En, Fn. auto.
  - exists n1, n2. auto.
  - exists n1, n2. auto.
Qed.

Lemma worldless_bind {A B : Type} (m : M A) (k : A -> M B) :
  worldless m -> (forall a, worldless (k a)) -> worldless (bind m k).
Proof.
  intros [Hf Hs] Hk. split.
  - intros w1 w2. unfold bind. specialize (Hf w1 w2).
    destruct (m w1) as [[a | | e1] w1'], (m w2) as [[b | | e2] w2'];
      simpl in *; try congruence.
    injection Hf as ->. apply (proj1 (Hk b)).
  - intros w. unfold bind. specialize (Hs w).
    destruct (m w) as [[a | | e] w']; simpl in *; auto.
    rewrite (proj2 (Hk a)). exact Hs.
Qed.

Lemma worldless_ret {A : Type} (a : A) : worldless (ret a).
Proof. split; reflexivity. Qed.

Lemma worldless_return {A : Type} : worldless (@py_return A).
Proof. split; reflexivity. Qed.

Lemma worldless_raise {A : Type} e : worldless (@raise A e).
Proof. split; reflexivity. Qed.

Lemma worldless_lift {A : Type} (r : exn + A) : worldless (lift r).
Proof. destruct r; [apply worldless_raise | apply worldless_ret]. Qed.

Lemma worldless_logging lvl fmt args : worldless (logging lvl fmt args).
Proof. split; reflexivity. Qed.

Lemma worldless_when b m : worldless m -> worldless (when b m).
Proof. destruct b; simpl; [auto | intros _; apply worldless_ret]. Qed.

Create HintDb worldless.
#[local] Hint Resolve worldless_ret worldless_return worldless_raise
  worldless_lift worldless_logging worldless_when worldless_bind : worldless.

Section Again.
Context {L : Library}.

Lemma worldless_compile text : worldless (compile text).
Proof.
  split; intros; unfold compile, lift;
    destruct (jsonpath_parse text); reflexivity.
Qed.

Lemma worldless_extract msg specs : forall acc,
  worldless (extract specs msg acc).
Proof.
  induction specs as [| [key text] rest IH]; intros acc.
  - apply worldless_ret.
  - rewrite extract_cons.
    apply worldless_bind; [apply worldless_compile |].
    intros path. destruct (is_none _); apply IH.
Qed.

Lemma worldless_extract_if_present d msg :
  worldless (extract_if_present d msg).
Proof.
  destruct d; simpl; [apply worldless_extract | apply worldless_ret].
Qed.

Lemma worldless_len_of name d : worldless (len_of name d).
Proof. destruct d; simpl; auto with worldless. Qed.

Lemma worldless_build_msg message : worldless (build_msg message).
Proof.
  unfold build_msg. apply worldless_bind; [apply worldless_lift |].
  intros payload. destruct (json_loads _); auto with worldless.
Qed.

#[local] Hint Resolve worldless_extract_if_present worldless_len_of
  worldless_build_msg : worldless.

Lemma alike_now : alike (fun _ _ : string => True) now now.
Proof.
  intros w1 w2. exists [], []. simpl. rewrite !app_nil_r. auto.
Qed.

(** The end of the body, from line 133, with two times. *)
Lemma alike_write (point : Point.t) (env meas : pyval)
      (tags fields : dict pyval) (t1 t2 : string) :
  alike eq
    (logging DEBUG "influxdb write %s"
             [ARecord (Rec.Build meas t1 tags fields)] ;;
     write_points (Rec.Build meas t1 tags fields) (Point.database point) ;;
     ret (Some env))%py
    (logging DEBUG "influxdb write %s"
             [ARecord (Rec.Build meas t2 tags fields)] ;;
     write_points (Rec.Build meas t2 tags fields) (Point.database point) ;;
     ret (Some env))%py.
Proof.
  intros w1 w2.
  exists [Write_points (Rec.Build meas t1 tags fields) (Point.database point)],
         [Write_points (Rec.Build meas t2 tags fields) (Point.database point)].
  simpl. auto.
Qed.

Lemma alike_loop_body message point msg :
  alike eq (loop_body message point msg) (loop_body message point msg).
Proof.
  unfold loop_body.
  destruct (topic_matches_sub _ _);
    [| apply alike_of_worldless, worldless_ret].
  apply alike_bind with (R := eq).
  { apply alike_of_worldless. destruct msg; auto with worldless. }
  intros env ? <-.
  destruct (is_none _);
    [apply alike_of_worldless; auto with worldless |].
  apply alike_bind with (R := fun _ _ => True); [apply alike_now |].
  intros t1 t2 _.
  apply alike_bind with (R := eq);
    [apply alike_of_worldless; auto with worldless |].
  intros fields ? <-.
  destruct (dict_is_empty fields);
    [apply alike_of_worldless; auto with worldless |].
  apply alike_bind with (R := eq);
    [apply alike_of_worldless; auto with worldless |].
  intros nfields ? <-.
  apply alike_bind with (R := eq);
    [apply alike_of_worldless; auto with worldless |].
  intros _ _ _.
  apply alike_bind with (R := eq);
    [apply alike_of_worldless; auto with worldless |].
  intros tags ? <-.
  apply alike_bind with (R := eq);
    [apply alike_of_worldless; auto with worldless |].
  intros ntags ? <-.
  apply alike_bind with (R := eq);
    [apply alike_of_worldless; auto with worldless |].
  intros _ _ _.
  apply alike_write.
Qed.

Lemma alike_for_points message points : forall msg,
  alike eq (for_points message points msg) (for_points message points msg).
Proof.
  induction points as [| point rest IH]; intros msg; simpl.
  - apply alike_of_worldless, worldless_ret.
  - apply alike_bind with (R := eq); [apply alike_loop_body |].
    intros msg' ? <-. apply IH.
Qed.
End Again.


(** ** A match that is null *)

(** X13.  A path whose first match is the JSON null gives no value, as
    a path without a match does: a rule that matches the topic and whose
    only field is such a path makes the handler return with nothing
    written. *)
Theorem null_match_is_no_value {L : Library}
    (pre post : list Point.t) (point : Point.t) (message : Message.t)
    (text : string) (v : pyval) (w : world)
    (key expr : string) (path : JSONPath) (others : list pyval)
    (Hpre : some_rule_matches pre (Message.topic message) = false)
    (Hmatch : topic_matches_sub (Point.topic point) (Message.topic message)
              = true)
    (Hdecode : decode_utf8 (Message.payload message) = inr text)
    (Hloads : json_loads (if String.eqb text EmptyString then "null" else text)
              = inr v)
    (Hfields : Point.fields point = Some [(key, expr)])
    (Hparse : jsonpath_parse expr = inr path)
    (Hfind : jsonpath_find path (envelope message v) = PNone :: others) :
  fst (_on_mqtt_message (pre ++ point :: post) message w) = Returned
  /\ w_sink (snd (_on_mqtt_message (pre ++ point :: post) message w))
     = w_sink w.
Proof.
  rewrite on_mqtt_message_loop.
  set (w1 := snd (logging _ _ _ w)).
  change (w_sink w) with (w_sink w1).
  rewrite (for_points_skip message pre (point :: post) None w1 Hpre).
  assert (Hbuild : build_msg message w1 = (Normal (envelope message v), w1)).
  { unfold build_msg, bind. rewrite Hdecode. simpl.
    rewrite Hloads. reflexivity. }
  assert (Hval : _get_value_from_str_or_JSONPath (Compiled path)
                   (envelope message v) = PNone).
  { unfold _get_value_from_str_or_JSONPath. rewrite Hfind. reflexivity. }
  destruct (loop_body_no_value message point None (envelope message v) w1
              key expr path Hmatch Hbuild Hfields Hparse Hval) as [Hf Hs].
  simpl for_points. unfold bind.
  destruct (loop_body message point None w1) as [[a | | e] w2];
    simpl in Hf, Hs; try discriminate.
  split; [reflexivity | exact Hs].
Qed.

(** The temperature rule without tags on a reading whose value is null. *)
Lemma null_match_is_no_value_witness :
  fst (@_on_mqtt_message model ([] ++ Scenario.tagless :: []) null_reading
         world0) = Returned
  /\ w_sink (snd (@_on_mqtt_message model ([] ++ Scenario.tagless :: [])
                    null_reading world0))
     = w_sink world0.
Proof.
  apply (@null_match_is_no_value model [] [] Scenario.tagless null_reading
           ("{" ++ quoted "value" ++ ": null}")%string
           (PDict [("value", PNone)]) world0
           "value" "$.payload.value" [Field "payload"; Field "value"] []);
    reflexivity.
Defined.

(** ** Where the values of a record come from *)

Lemma Forall_dict_set {V : Type} (P : string * V -> Prop) k v d :
  P (k, v) -> Forall P d -> Forall P (dict_set k v d).
Proof.
  intros Hkv. induction d as [| [k' v'] d IH]; simpl; intros H.
  - constructor; [exact Hkv | constructor].
  - inversion H as [| ? ? Hhead Htail]; subst.
    destruct (String.eqb_spec k k') as [<- | Hne]; constructor; auto.
Qed.

Section Provenance.
Context {L : Library}.

Lemma compile_normal text w path w' :
  compile text w = (Normal path, w') -> jsonpath_parse text = inr path.
Proof.
  unfold compile, lift. destruct (jsonpath_parse text) as [e0 | p].
  - unfold raise. discriminate.
  - unfold ret. congruence.
Qed.

Lemma extract_selected msg (S : dict string) specs :
  incl specs S ->
  forall acc w fs w',
    extract specs msg acc w = (Normal fs, w') ->
    selected_from S msg acc -> selected_from S msg fs.
Proof.
  induction specs as [| [key text] rest IH]; intros HS acc w fs w' H Hacc.
  - simpl in H. unfold ret in H. injection H as <- _. exact Hacc.
  - assert (HS' : incl rest S) by (intros x Hx; apply HS; now right).
    rewrite extract_cons in H. unfold bind in H.
    destruct (compile text w) as [[path | | e] w1] eqn:E; try discriminate.
    destruct (is_none _).
    + exact (IH HS' _ _ _ _ H Hacc).
    + apply (IH HS' _ _ _ _ H). apply Forall_dict_set; [| exact Hacc].
      exists text, path. simpl. split; [apply HS; now left |].
      split; [exact (compile_normal _ _ _ _ E) | reflexivity].
Qed.

Lemma extract_if_present_selected d msg w fs w' :
  extract_if_present d msg w = (Normal fs, w') ->
  selected_from (items_of d) msg fs.
Proof.
  destruct d as [specs |]; simpl; intros H.
  - apply (extract_selected msg specs specs (incl_refl _) [] w fs w' H).
    constructor.
  - unfold ret in H. injection H as <- _. constructor.
Qed.

Lemma after_fields_read point env meas time fields w a w' :
  after_fields point env meas time fields w = (Normal a, w') ->
  a = Some env
  /\ exists tags,
    w_sink w'
    = w_sink w
      ++ [Write_points (Rec.Build meas time tags fields)
                       (Point.database point)]
    /\ selected_from (items_of (Point.tags point)) env tags.
Proof.
  unfold after_fields. unfold bind at 1.
  destruct (extract_if_present_quiet (Point.tags point) env w)
    as (_ & Hs & _ & _).
  destruct (extract_if_present (Point.tags point) env w)
    as [[tags | | e] w1] eqn:E; simpl in Hs; intros H; try discriminate.
  pose proof (extract_if_present_selected _ _ _ _ _ E) as Hsel.
  destruct (Point.tags point) as [ts |]; [| discriminate].
  unfold len_of, bind, ret, when, logging, write_points in H.
  destruct (negb _); injection H as <- <-;
    (split; [reflexivity |]); exists tags; (split; [| exact Hsel]);
    simpl; now rewrite Hs.
Qed.

(** A rule that matches and falls through has written a record read
    from the envelope it was given, and hands that envelope on. *)
Lemma loop_body_read message point msg env w a w' :
  topic_matches_sub (Point.topic point) (Message.topic message) = true ->
  (forall w0,
      match msg with None => build_msg message | Some m0 => ret m0 end w0
      = (Normal env, w0)) ->
  loop_body message point msg w = (Normal a, w') ->
  a = Some env
  /\ exists c, w_sink w' = w_sink w ++ [c] /\ read_from env point c.
Proof.
  intros Hmatch Hmsg H.
  destruct (loop_body_cases message point msg w Hmatch)
    as [(env' & c & Hf & Hs & _) | [Hf _]];
    [| rewrite H in Hf; exfalso; now apply (Hf a)].
  rewrite H in Hf, Hs. simpl in Hf, Hs.
  rewrite (loop_body_stages _ _ _ _ Hmatch) in H.
  rewrite (bind_normal _ _ _ _ _ (Hmsg w)) in H. cbv zeta in H.
  destruct (is_none _); [discriminate |].
  unfold bind at 1 in H. unfold now at 1 in H. unfold bind at 1 in H.
  destruct (extract_if_present_quiet (Point.fields point) env
              (World (w_log w) (w_sink w) (w_compiled w) (S (w_clock w))
                     (w_calls w))) as (_ & Hs2 & _ & _).
  destruct (extract_if_present (Point.fields point) env _)
    as [[fields | | e] w2] eqn:E; try discriminate.
  simpl in Hs2.
  pose proof (extract_if_present_selected _ _ _ _ _ E) as Hsel.
  destruct (dict_is_empty fields); [discriminate |].
  destruct (Point.fields point) as [fs |] eqn:Efs.
  2:{ simpl in E. unfold ret in E. injection E as <- _.
      unfold bind, len_of, raise in H. discriminate. }
  unfold bind at 1 in H. cbn [len_of] in H. unfold ret at 1 in H.
  unfold bind at 1 in H.
  assert (Hw : exists w4,
             when (negb (length fields =? length fs)%nat)
                  (logging WARNING "different number of fields" []) w2
             = (Normal tt, w4) /\ w_sink w4 = w_sink w2).
  { destruct (negb _); simpl; eexists; split; reflexivity. }
  destruct Hw as (w4 & Hw & Hs4). rewrite Hw in H.
  destruct (after_fields_read _ _ _ _ _ _ _ _ H)
    as (Ha & tags & Hs5 & Htags).
  split; [exact Ha |].
  eexists. split; [rewrite Hs5, Hs4, Hs2; reflexivity |].
  unfold read_from. cbn [written Rec.measurement Rec.fields Rec.tags].
  rewrite Efs. auto.
Qed.

Lemma for_points_read message env points : forall msg w,
  (forall w0,
      match msg with None => build_msg message | Some m0 => ret m0 end w0
      = (Normal env, w0)) ->
  exists new,
    w_sink (snd (for_points message points msg w)) = w_sink w ++ new
    /\ Forall2 (read_from env)
               (firstn (length new) (matching points (Message.topic message)))
               new.
Proof.
  induction points as [| point rest IH]; intros msg w Hmsg.
  - exists []. simpl. rewrite app_nil_r. auto.
  - simpl matching. simpl for_points.
    destruct (topic_matches_sub (Point.topic point) (Message.topic message))
      eqn:Hmatch.
    + unfold bind.
      destruct (loop_body message point msg w) as [[a | | e] w'] eqn:E.
      * destruct (loop_body_read _ _ _ _ _ _ _ Hmatch Hmsg E)
          as (-> & c & Hs & Hc).
        destruct (IH (Some env) w' (fun _ => eq_refl)) as (new & Hs' & Hall).
        exists (c :: new). rewrite Hs', Hs, <- app_assoc. simpl.
        split; [reflexivity | now constructor].
      * exists []. simpl. rewrite app_nil_r. split; [| constructor].
        destruct (loop_body_cases message point msg w Hmatch)
          as [(? & ? & Hf & _) | [_ Hs]]; rewrite E in *;
          [discriminate | exact Hs].
      * exists []. simpl. rewrite app_nil_r. split; [| constructor].
        destruct (loop_body_cases message point msg w Hmatch)
          as [(? & ? & Hf & _) | [_ Hs]]; rewrite E in *;
          [discriminate | exact Hs].
    + unfold loop_body. rewrite Hmatch. unfold bind at 1. simpl.
      now apply IH.
Qed.
End Provenance.

(** X14.  All the records of a message are read from one envelope, the
    one built from its topic and its parsed payload: the measurement of
    a record is what the measurement of its rule evaluates to there, and
    every field and every tag holds under its key what an expression the
    rule gives for that key selects there. *)
Theorem records_read_from_one_envelope {L : Library}
    (points : list Point.t) (message : Message.t) (text : string) (v : pyval)
    (w : world)
    (Hdecode : decode_utf8 (Message.payload message) = inr text)
    (Hloads : json_loads (if String.eqb text EmptyString then "null" else text)
              = inr v) :
  exists new,
    w_sink (snd (_on_mqtt_message points message w)) = w_sink w ++ new
    /\ Forall2 (read_from (envelope message v))
               (firstn (length new) (matching points (Message.topic message)))
               new.
Proof.
  rewrite on_mqtt_message_loop.
  destruct (for_points_read message (envelope message v) points None
              (snd (logging DEBUG "mqtt_on_message %s %s"
                            [AStr (Message.topic message);
                             ABytes (Message.payload message)] w)))
    as (new & Hs & Hall).
  { intros w0. unfold build_msg, bind. rewrite Hdecode. simpl.
    rewrite Hloads. reflexivity. }
  exists new. split; [exact Hs | exact Hall].
Qed.

(** The two rules on a reading: the humidity rule finds nothing and
    ends the handling. *)
Lemma records_read_from_one_envelope_witness :
  exists new,
    w_sink (snd (@_on_mqtt_message model
                   [Scenario.temperature; Scenario.humidity]
                   Scenario.reading world0))
    = w_sink world0 ++ new
    /\ Forall2 (@read_from model
                  (envelope Scenario.reading (PDict [("value", PFloat "21.5")])))
               (firstn (length new)
                       (@matching model
                          [Scenario.temperature; Scenario.humidity]
                          (Message.topic Scenario.reading)))
               new.
Proof.
  apply (@records_read_from_one_envelope model
           [Scenario.temperature; Scenario.humidity] Scenario.reading
           ("{" ++ quoted "value" ++ ": 21.5}")%string
           (PDict [("value", PFloat "21.5")]) world0);
    reflexivity.
Defined.

(** ** C8, with the rules before *)

(** A rule whose only field yields no value ends the loop wherever it
    stands: what the rules before it wrote is all that is written. *)
Lemma for_points_ends_at {L : Library} message env point post key text path :
  topic_matches_sub (Point.topic point) (Message.topic message) = true ->
  Point.fields point = Some [(key, text)] ->
  jsonpath_parse text = inr path ->
  _get_value_from_str_or_JSONPath (Compiled path) env = PNone ->
  forall pre msg w,
    (forall w0,
        match msg with None => build_msg message | Some m0 => ret m0 end w0
        = (Normal env, w0)) ->
    (forall a,
        fst (for_points message (pre ++ point :: post) msg w) <> Normal a)
    /\ w_sink (snd (for_points message (pre ++ point :: post) msg w))
       = w_sink (snd (for_points message pre msg w)).
Proof.
  intros Hmatch Hfields Hparse Hval.
  induction pre as [| p pre IH]; intros msg w Hmsg.
  - destruct (loop_body_no_value message point msg env w key text path
                Hmatch (Hmsg w) Hfields Hparse Hval) as [Hf Hs].
    simpl. unfold bind.
    destruct (loop_body message point msg w) as [[a | | e] w2];
      simpl in Hf, Hs; try discriminate.
    split; [intros a; discriminate | exact Hs].
  - simpl. unfold bind.
    destruct (loop_body message p msg w) as [[a | | e] w'] eqn:E.
    + apply IH.
      destruct (topic_matches_sub (Point.topic p) (Message.topic message))
        eqn:Hp.
      * destruct (loop_body_read _ _ _ _ _ _ _ Hp Hmsg E) as [-> _].
        intros w0. reflexivity.
      * unfold loop_body in E. rewrite Hp in E. unfold ret in E.
        injection E as <- _. exact Hmsg.
    + split; [intros a; discriminate | reflexivity].
    + split; [intros a; discriminate | reflexivity].
Qed.

(** C8.  On the model, for a message whose payload decodes to the empty
    text.  The envelope built is the dict of the topic segments, the
    payload [None] (the JSON null), the timestamp and the QoS; the path
    [$.payload] finds that null; every path into the payload evaluates to
    no value.  A rule that matches the topic and whose only field is such
    a path writes no record, wherever it stands among the rules: the
    handler never falls through, and all it has written is what the
    rules before that one wrote.  When no rule before it matches, the
    handler returns with nothing written. *)
Theorem empty_payload_is_null
    (pre post : list (@Point.t model)) (point : @Point.t model)
    (message : Message.t) (key text : string) (steps : program) (w : world)
    (Hempty : decode_utf8 (Message.payload message) = inr EmptyString)
    (Hmatch : matches (Point.topic point) (Message.topic message) = true)
    (Hfields : Point.fields point = Some [(key, text)])
    (Hpath : parse text = inr (into_payload steps)) :
  let env :=
    PDict [("topic", PList (map PStr (split "/" (Message.topic message))));
           ("payload", PNone);
           ("timestamp", Message.timestamp message);
           ("qos", PInt (Message.qos message))] in
  let handled := @_on_mqtt_message model (pre ++ point :: post) message w in
  @build_msg model message w = (Normal env, w)
  /\ find (into_payload []) env = [PNone]
  /\ (forall steps',
         @_get_value_from_str_or_JSONPath model
            (@Compiled model (into_payload steps')) env
         = PNone)
  /\ (forall a, fst handled <> Normal a)
  /\ w_sink (snd handled) = w_sink (snd (@_on_mqtt_message model pre message w))
  /\ (@some_rule_matches model pre (Message.topic message) = false ->
      fst handled = Returned /\ w_sink (snd handled) = w_sink w).
Proof.
  intros env handled.
  assert (Hbuild : forall w0, @build_msg model message w0 = (Normal env, w0)).
  { intros w0. unfold build_msg, bind. rewrite Hempty. reflexivity. }
  assert (Hnone : forall steps',
             @_get_value_from_str_or_JSONPath model
                (@Compiled model (into_payload steps')) env = PNone).
  { intros steps'. apply (no_value_in_null_payload message steps'). }
  split; [apply Hbuild |]. split; [reflexivity |]. split; [exact Hnone |].
  destruct (@for_points_ends_at model message env point post key text
              (into_payload steps) Hmatch Hfields Hpath (Hnone steps)
              pre None
              (snd (logging DEBUG "mqtt_on_message %s %s"
                            [AStr (Message.topic message);
                             ABytes (Message.payload message)] w))
              Hbuild) as [Hf Hs].
  subst handled. rewrite !on_mqtt_message_loop.
  split; [exact Hf |]. split; [exact Hs |].
  intros Hpre. clear Hf Hs.
  set (w1 := snd (logging _ _ _ w)).
  change (w_sink w) with (w_sink w1).
  rewrite (for_points_skip message pre (point :: post) None w1 Hpre).
  destruct (@loop_body_no_value model message point None env w1
              key text (into_payload steps)
              Hmatch (Hbuild w1) Hfields Hpath (Hnone steps)) as [Hr Hs].
  simpl for_points. unfold bind.
  destruct (loop_body message point None w1) as [[a | | e] w2];
    simpl in Hr, Hs; try discriminate.
  split; [reflexivity | exact Hs].
Qed.

(** The empty message of section 8 on two rules that match: the first
    reads its field from the topic and writes its record; the temperature
    rule, whose only field is [$.payload.value], stands second and
    writes none. *)
Lemma empty_payload_is_null_witness :
  let env :=
    PDict [("topic", PList [PStr "sensors"; PStr "kitchen"; PStr "temp"]);
           ("payload", PNone);
           ("timestamp", PFloat "0.0");
           ("qos", PInt 0)] in
  let handled := @_on_mqtt_message model
                   ([seen] ++ Scenario.temperature :: [])
                   Scenario.empty world0 in
  @build_msg model Scenario.empty world0 = (Normal env, world0)
  /\ find (into_payload []) env = [PNone]
  /\ (forall steps',
         @_get_value_from_str_or_JSONPath model
            (@Compiled model (into_payload steps')) env
         = PNone)
  /\ (forall a, fst handled <> Normal a)
  /\ w_sink (snd handled)
     = w_sink (snd (@_on_mqtt_message model [seen]
                      Scenario.empty world0))
  /\ (@some_rule_matches model [seen]
        (Message.topic Scenario.empty) = false ->
      fst handled = Returned /\ w_sink (snd handled) = w_sink world0).
Proof.
  apply (empty_payload_is_null [seen] [] Scenario.temperature
           Scenario.empty "value" "$.payload.value" [Field "value"] world0);
    reflexivity.
Defined.

(** * The handler when the libraries raise *)

Section UnguardedFacts.
Context {L : Library} {F : Failing}.

(** The evaluation returns what it returns under the contract, or [find]
    has raised. *)
Lemma get_value_r_cases p msg w :
  _get_value_from_str_or_JSONPath_r p msg w
  = (Normal (_get_value_from_str_or_JSONPath p msg), w)
  \/ exists path e,
      p = Compiled path /\ find_raises path msg = Some e
      /\ _get_value_from_str_or_JSONPath_r p msg w = (Raised e, w).
Proof.
  destruct p as [v | path]; simpl.
  - left. destruct v; reflexivity.
  - destruct (find_raises path msg) as [e |] eqn:E.
    + right. exists path, e. auto.
    + left. destruct (jsonpath_find path msg); reflexivity.
Qed.

Lemma extract_r_cons key text rest msg acc :
  extract_r ((key, text) :: rest) msg acc
  = (path <- compile text ;;
     val <- _get_value_from_str_or_JSONPath_r (Compiled path) msg ;;
     if is_none val then extract_r rest msg acc
     else extract_r rest msg (dict_set key val acc))%py.
Proof. reflexivity. Qed.

Lemma quiet_bind {A B : Type} (m : M A) (k : A -> M B) :
  quiet m -> (forall a, quiet (k a)) -> quiet (bind m k).
Proof.
  intros Hm Hk w. unfold bind.
  destruct (Hm w) as (Hl & Hs & Hc & Hc').
  destruct (m w) as [[a | | e] w1]; simpl in Hl, Hs, Hc, Hc';
    [| simpl; auto ..].
  destruct (Hk a w1) as (E1 & E2 & E3 & E4).
  rewrite E1, E2, E3, E4. auto.
Qed.

Lemma get_value_r_quiet p msg :
  quiet (_get_value_from_str_or_JSONPath_r p msg).
Proof.
  intros w.
  destruct (get_value_r_cases p msg w) as [-> | (path & e & _ & _ & ->)];
    simpl; auto.
Qed.

Lemma extract_r_quiet specs msg : forall acc, quiet (extract_r specs msg acc).
Proof.
  induction specs as [| [key text] rest IH]; intros acc.
  - intros w. simpl. auto.
  - rewrite extract_r_cons.
    apply quiet_bind; [apply compile_quiet |]. intros path.
    apply quiet_bind; [apply get_value_r_quiet |]. intros val.
    destruct (is_none val); apply IH.
Qed.

Lemma extract_if_present_r_quiet d msg : quiet (extract_if_present_r d msg).
Proof.
  destruct d; simpl; [apply extract_r_quiet |]. intros w. simpl. auto.
Qed.

Lemma extract_r_raised msg specs : forall acc w e w',
  extract_r specs msg acc w = (Raised e, w') ->
  (exists text, In text (map snd specs) /\ jsonpath_parse text = inl e)
  \/ (exists path, find_raises path msg = Some e).
Proof.
  induction specs as [| [key text] rest IH]; intros acc w e w' H.
  - discriminate.
  - rewrite extract_r_cons in H. unfold bind at 1 in H.
    destruct (compile text w) as [[path | | e0] w1] eqn:E.
    + unfold bind in H.
      destruct (get_value_r_cases (Compiled path) msg w1)
        as [Hv | (p & e1 & _ & Hf & Hv)]; rewrite Hv in H.
      * destruct (is_none _);
          (destruct (IH _ _ _ _ H) as [(t & Hin & Ht) | Hr];
           [left; exists t; split; [now right | exact Ht] | now right]).
      * injection H as <- _. right. now exists p.
    + discriminate.
    + injection H as <- _. left. exists text. split; [now left |].
      exact (compile_raised _ _ _ _ E).
Qed.

Lemma extract_if_present_r_raised msg d w e w' :
  extract_if_present_r d msg w = (Raised e, w') ->
  (exists text, In text (exprs_of d) /\ jsonpath_parse text = inl e)
  \/ (exists path, find_raises path msg = Some e).
Proof.
  destruct d as [specs |]; simpl; [apply extract_r_raised | discriminate].
Qed.

(** The ways the body of the loop raises. *)
Lemma loop_body_r_raised message point msg w e w' :
  loop_body_r message point msg w = (Raised e, w') ->
  topic_matches_sub (Point.topic point) (Message.topic message) = true
  /\ (decode_utf8 (Message.payload message) = inl e
      \/ (exists text,
             In text (exprs_of (Point.fields point)
                      ++ exprs_of (Point.tags point))
             /\ jsonpath_parse text = inl e)
      \/ (e = KeyError "tags" /\ Point.tags point = None)
      \/ (exists path env, find_raises path env = Some e)
      \/ (exists w0 r db, write_raises w0 r db = Some e)).
Proof.
  intros H. unfold loop_body_r in H.
  destruct (topic_matches_sub (Point.topic point) (Message.topic message));
    [| discriminate].
  split; [reflexivity |].
  unfold bind at 1 in H.
  destruct (match msg with
            | None => build_msg message
            | Some m0 => ret m0
            end w) as [[env | | e0] w0] eqn:E0.
  2:{ discriminate. }
  2:{ injection H as <- _. left.
      exact (cached_or_built_raised _ _ _ _ _ E0). }
  unfold bind at 1 in H.
  destruct (get_value_r_cases (Point.measurement point) env w0)
    as [Hv | (p & e1 & _ & Hf & Hv)]; rewrite Hv in H.
  2:{ injection H as <- _. right. right. right. left. now exists p, env. }
  destruct (is_none _); [discriminate |].
  unfold bind at 1 in H. unfold now at 1 in H.
  unfold bind at 1 in H.
  destruct (extract_if_present_r (Point.fields point) env _)
    as [[fields | | e1] w2] eqn:E1.
  2:{ discriminate. }
  2:{ injection H as <- _.
      destruct (extract_if_present_r_raised _ _ _ _ _ E1)
        as [(t & Hin & Ht) | (p & Hp)].
      - right. left. exists t. split; [apply in_or_app; now left | exact Ht].
      - right. right. right. left. now exists p, env. }
  destruct (dict_is_empty fields) eqn:Hempty; [discriminate |].
  destruct (Point.fields point) as [fs |] eqn:Efs.
  2:{ simpl in E1. unfold ret in E1. injection E1 as <- _. discriminate. }
  unfold bind at 1 in H. cbn [len_of] in H. unfold ret at 1 in H.
  unfold bind at 1 in H.
  destruct (when (negb (length fields =? length fs)%nat)
                 (logging WARNING "different number of fields" []) w2)
    as [[[] | | e2] w3] eqn:E2;
    [| destruct (negb _); discriminate ..].
  unfold bind at 1 in H.
  destruct (extract_if_present_r (Point.tags point) env w3)
    as [[tags | | e3] w4] eqn:E3.
  2:{ discriminate. }
  2:{ injection H as <- _.
      destruct (extract_if_present_r_raised _ _ _ _ _ E3)
        as [(t & Hin & Ht) | (p & Hp)].
      - right. left. exists t. split; [apply in_or_app; now right | exact Ht].
      - right. right. right. left. now exists p, env. }
  destruct (Point.tags point) as [ts |] eqn:Ets.
  2:{ unfold bind at 1 in H. unfold len_of, raise in H.
      cbv beta iota in H. injection H as <- _.
      right. right. left. auto. }
  unfold bind at 1 in H. cbn [len_of] in H. unfold ret at 1 in H.
  unfold bind at 1 in H.
  destruct (when (negb (length tags =? length ts)%nat)
                 (logging WARNING "different number of tags" []) w4)
    as [[[] | | e4] w5] eqn:E4;
    [| destruct (negb (length tags =? length ts)%nat); discriminate ..].
  cbv zeta in H. unfold bind at 1 in H. unfold logging at 1 in H.
  unfold bind at 1 in H. unfold write_points_r at 1 in H.
  destruct (write_raises _ _ _) as [e5 |] eqn:E5.
  - injection H as <- _. right. right. right. right. eauto.
  - discriminate.
Qed.

Lemma may_raise_r_cons point rest message e :
  may_raise_r rest message e -> may_raise_r (point :: rest) message e.
Proof.
  intros [H | H]; [left; now apply may_raise_cons | right; exact H].
Qed.

Lemma for_points_r_raised message points : forall msg w e w',
  for_points_r message points msg w = (Raised e, w') ->
  may_raise_r points message e.
Proof.
  induction points as [| point rest IH]; intros msg w e w' H;
    [discriminate |].
  simpl in H. unfold bind in H.
  destruct (loop_body_r message point msg w) as [[a | | e0] w1] eqn:E.
  - apply may_raise_r_cons. exact (IH _ _ _ _ H).
  - discriminate.
  - injection H as <- _.
    destruct (loop_body_r_raised _ _ _ _ _ _ E) as [Hmatch Hcases].
    unfold may_raise_r, may_raise.
    simpl matching. simpl some_rule_matches. rewrite Hmatch.
    destruct Hcases as [Hd | [(t & Hin & Ht) | [[He Ht] | [Hf | Hw]]]].
    + left. left. auto.
    + left. right. left. exists point, t. split; [now left | auto].
    + left. right. right. split; [exact He |]. exists point.
      split; [now left | exact Ht].
    + right. left. exact Hf.
    + right. right. exact Hw.
Qed.
End UnguardedFacts.

Lemma bind_ext2 {A B : Type} (m1 m2 : M A) (k1 k2 : A -> M B) w :
  (forall w0, m1 w0 = m2 w0) -> (forall a w', k1 a w' = k2 a w') ->
  bind m1 k1 w = bind m2 k2 w.
Proof.
  intros Hm Hk. unfold bind. rewrite Hm.
  destruct (m2 w) as [[a | | e] w']; auto.
Qed.

(** When [find] and [write_points] return, the handler with the
    unguarded calls is the handler above. *)
Section ContractKept.
Context {L : Library} {F : Failing}.
Hypothesis Hfind : forall path env, find_raises path env = None.
Hypothesis Hwrite : forall w r db, write_raises w r db = None.

Lemma get_value_r_returns p msg w :
  _get_value_from_str_or_JSONPath_r p msg w
  = (Normal (_get_value_from_str_or_JSONPath p msg), w).
Proof.
  destruct (get_value_r_cases p msg w) as [H | (path & e & _ & Hf & _)];
    [exact H |].
  rewrite Hfind in Hf. discriminate.
Qed.

Lemma extract_r_agrees specs msg : forall acc w,
  extract_r specs msg acc w = extract specs msg acc w.
Proof.
  induction specs as [| [key text] rest IH]; intros acc w; [reflexivity |].
  rewrite extract_r_cons, extract_cons. apply bind_ext. intros path w'.
  rewrite (bind_normal _ _ _ _ _ (get_value_r_returns (Compiled path) msg w')).
  destruct (is_none _); apply IH.
Qed.

Lemma extract_if_present_r_agrees d msg w :
  extract_if_present_r d msg w = extract_if_present d msg w.
Proof. destruct d; simpl; [apply extract_r_agrees | reflexivity]. Qed.

Lemma loop_body_r_agrees message point msg w :
  loop_body_r message point msg w = loop_body message point msg w.
Proof.
  unfold loop_body_r, loop_body.
  destruct (topic_matches_sub _ _); [| reflexivity].
  apply bind_ext. intros env w1.
  rewrite (bind_normal _ _ _ _ _
             (get_value_r_returns (Point.measurement point) env w1)).
  cbv zeta. destruct (is_none _); [reflexivity |].
  apply bind_ext. intros time w2.
  apply bind_ext2; [intros; apply extract_if_present_r_agrees |].
  intros fields w3. destruct (dict_is_empty fields); [reflexivity |].
  apply bind_ext. intros nfields w4.
  apply bind_ext. intros _ w5.
  apply bind_ext2; [intros; apply extract_if_present_r_agrees |].
  intros tags w6.
  apply bind_ext. intros ntags w7.
  apply bind_ext. intros _ w8.
  apply bind_ext. intros _ w9.
  apply bind_ext2; [| reflexivity].
  intros w0. unfold write_points_r. now rewrite Hwrite.
Qed.

Lemma for_points_r_agrees message points : forall msg w,
  for_points_r message points msg w = for_points message points msg w.
Proof.
  induction points as [| point rest IH]; intros msg w; [reflexivity |].
  simpl. apply bind_ext2; [intros; apply loop_body_r_agrees |].
  intros a w'. apply IH.
Qed.

Lemma on_mqtt_message_r_agrees points message w :
  _on_mqtt_message_r points message w = _on_mqtt_message points message w.
Proof.
  unfold _on_mqtt_message_r, _on_mqtt_message.
  apply bind_ext. intros _ w'. apply for_points_r_agrees.
Qed.
End ContractKept.

(** ** C5: what the evaluation returns, and when it raises *)

Section Evaluation.
Context {L : Library} {F : Failing}.

(** An exception of [find] on the first field of a rule leaves the body
    of the loop as soon as the expression is compiled. *)
Lemma find_failure_leaves_body message point msg env m w key text specs
      path e :
  topic_matches_sub (Point.topic point) (Message.topic message) = true ->
  match msg with None => build_msg message | Some m0 => ret m0 end w
    = (Normal env, w) ->
  _get_value_from_str_or_JSONPath_r (Point.measurement point) env w
    = (Normal m, w) ->
  is_none m = false ->
  Point.fields point = Some ((key, text) :: specs) ->
  jsonpath_parse text = inr path ->
  find_raises path env = Some e ->
  loop_body_r message point msg w
  = (Raised e,
     World (w_log w) (w_sink w) (w_compiled w ++ [text]) (S (w_clock w))
           (w_calls w)).
Proof.
  intros Hmatch Hmsg Hmeas Hm Hfields Hparse Hraise.
  unfold loop_body_r. rewrite Hmatch.
  rewrite (bind_normal _ _ _ _ _ Hmsg).
  rewrite (bind_normal _ _ _ _ _ Hmeas). rewrite Hm.
  rewrite (bind_normal now _ w (utcnow (w_clock w)) (snd (now w)) eq_refl).
  rewrite Hfields. unfold extract_if_present_r. rewrite extract_r_cons.
  apply bind_raised.
  rewrite (bind_normal _ _ _ _ _ (compile_ok text path (snd (now w)) Hparse)).
  apply bind_raised.
  unfold _get_value_from_str_or_JSONPath_r. rewrite Hraise. reflexivity.
Qed.
End Evaluation.




(** ** How the handler can raise, with the libraries *)




